(** * QGLViewer/vec.cpp: the three-component vector [qglviewer::Vec]

    A shallow embedding of [src/QGLViewer/vec.cpp]: the two projection
    methods, the XML (QDom) serialisation and the stream output operator.

    - Scalars.  The components of a [Vec] are C++ floating point numbers.
      The code of [vec.cpp] is embedded over an interface [Scalar] of the
      arithmetic it uses, and read at IEEE binary64 (Rocq's primitive
      [float]): what the compiled program computes.
    - Objects.  [projectOnAxis], [projectOnPlane] and [initFromDOMElement]
      assign to [*this] and take arguments by reference, so a [Vec] lives in
      a heap of objects and a reference is a location; the receiver and an
      argument may be the same object.
    - Effects.  [qWarning] and the warnings of [DomUtils] append to a list
      of diagnostics; a method is a computation in a state monad over the
      heap and that list.
    - Texts.  [QString::number] and [QString::toDouble] are called with
      their default arguments: six significant digits are written, and a
      decimal numeral is read as a nearest double.
    - Rounding.  Statements about the precision of doubles measure a
      finite double by the integer it is in units of [2^-1074]; their
      proofs follow the rounding of [SpecFloat] bit by bit. *)

From Stdlib Require Import ZArith Floats Reals Lra Ascii String.
From stdpp Require Import base option list gmap strings pretty.

#[local] Set Warnings "-inexact-float".
#[local] Open Scope Z_scope.

(** ** Scalars *)

(** The arithmetic [vec.cpp] needs from the component type: the literals
    [0.0] and [1.0E-10], the four operations, [sqrt] and [<]. *)
Class Scalar (F : Type) : Type := {
  s_zero : F;
  s_eps : F;
  s_add : F → F → F;
  s_sub : F → F → F;
  s_mul : F → F → F;
  s_div : F → F → F;
  s_sqrt : F → F;
  s_ltb : F → F → bool
}.

Declare Scope scalar_scope.
Delimit Scope scalar_scope with sc.
Notation "a + b" := (s_add a b) : scalar_scope.
Notation "a - b" := (s_sub a b) : scalar_scope.
Notation "a * b" := (s_mul a b) : scalar_scope.
Notation "a / b" := (s_div a b) : scalar_scope.
Notation "a <? b" := (s_ltb a b) : scalar_scope.

(** The one fact about [<] the proofs use: it is asymmetric. *)
Class ScalarOrder (F : Type) `{Scalar F} : Prop := {
  s_ltb_asym : ∀ a b : F, (a <? b)%sc = true → (b <? a)%sc = false
}.

(** IEEE 754 binary64, round to nearest even: a C++ [double]. *)
#[export] Instance float_scalar : Scalar float := {|
  s_zero := 0%float;
  s_eps := 1.0E-10%float;
  s_add := PrimFloat.add;
  s_sub := PrimFloat.sub;
  s_mul := PrimFloat.mul;
  s_div := PrimFloat.div;
  s_sqrt := PrimFloat.sqrt;
  s_ltb := PrimFloat.ltb
|}.

(** ** The vector *)

(** Modelled from the spec: the declaration of [Vec] in [vec.h] (section 3:
    three numeric fields [x], [y], [z], addressed by name or, over the same
    storage, by index 0/1/2). *)
Record Vec (F : Type) : Type := mkVec { x : F; y : F; z : F }.
Arguments mkVec {F} _ _ _.
Arguments x {F} _.
Arguments y {F} _.
Arguments z {F} _.

Section VecOps.
Context {F : Type} `{Scalar F}.
#[local] Open Scope scalar_scope.

(** [v_[i]] read; the code only uses [i] in 0..2. *)
Definition get_v (i : nat) (a : Vec F) : F :=
  match i with 0%nat => x a | 1%nat => y a | _ => z a end.

(** [v_[i] = c]; an index past 2 is outside the array and is never
    produced by the code below: it is modelled as leaving [a] as it is. *)
Definition set_v (i : nat) (c : F) (a : Vec F) : Vec F :=
  match i with
  | 0%nat => mkVec c (y a) (z a)
  | 1%nat => mkVec (x a) c (z a)
  | 2%nat => mkVec (x a) (y a) c
  | _ => a
  end.

(** Modelled from the spec: the inline operators of [vec.h] (section 4.1,
    "dot product ([*] between two vectors)"). *)
Definition dot (a b : Vec F) : F := x a * x b + y a * y b + z a * z b.

(** Modelled from the spec: [Vec::squaredNorm] of [vec.h]. *)
Definition squaredNorm (a : Vec F) : F := x a * x a + y a * y a + z a * z a.

(** Modelled from the spec: [Vec::norm] of [vec.h]. *)
Definition norm (a : Vec F) : F := s_sqrt (squaredNorm a).

(** Modelled from the spec: [operator*(double, const Vec&)] of [vec.h],
    scalar multiplication. *)
Definition scale (k : F) (a : Vec F) : Vec F := mkVec (k * x a) (k * y a) (k * z a).

(** Modelled from the spec: [Vec::operator-=] of [vec.h], componentwise
    subtraction. *)
Definition minus (a b : Vec F) : Vec F := mkVec (x a - x b) (y a - y b) (z a - z b).

#[export] Instance Vec_inhabited : Inhabited (Vec F) :=
  populate (mkVec s_zero s_zero s_zero).
End VecOps.

(** ** Objects, diagnostics and the method monad *)

(** A reference ([const Vec&], [this]) is the location of an object. *)
Abbreviation loc := positive.

(** What the program prints on the warning channel. *)
Inductive Diagnostic (F : Type) : Type :=
  | QWarning (format : string) (arg : F)
  | DomWarning (attribute : string).
Arguments QWarning {F} _ _.
Arguments DomWarning {F} _.

Record World (F : Type) : Type := mkWorld {
  heap : gmap loc (Vec F);
  diagnostics : list (Diagnostic F)
}.
Arguments mkWorld {F} _ _.
Arguments heap {F} _.
Arguments diagnostics {F} _.

Definition M (F A : Type) : Type := World F → A * World F.

#[export] Instance M_ret {F} : MRet (M F) := λ A a w, (a, w).
#[export] Instance M_bind {F} : MBind (M F) :=
  λ A B k m w, let '(a, w') := m w in k a w'.

Section Methods.
Context {F : Type} `{Scalar F}.
#[local] Open Scope scalar_scope.

(** Reading the object a reference designates. *)
Definition load (l : loc) : M F (Vec F) := λ w, (heap w !!! l, w).

(** [*l = a]. *)
Definition store (l : loc) (a : Vec F) : M F unit :=
  λ w, (tt, mkWorld (<[l := a]> (heap w)) (diagnostics w)).

(** [qWarning(format, arg)]: one more line on the warning channel;
    control returns to the caller. *)
Definition qWarning (format : string) (arg : F) : M F unit :=
  λ w, (tt, mkWorld (heap w) (diagnostics w ++ [QWarning format arg])).

(** [void Vec::projectOnAxis(const Vec& direction)]. [QT_NO_DEBUG] is the
    preprocessor symbol of release builds. *)
Definition projectOnAxis (QT_NO_DEBUG : bool) (this direction : loc) : M F unit :=
  (if QT_NO_DEBUG then mret tt
   else
     d ← load direction;
     if squaredNorm d <? s_eps
     then qWarning "Vec::projectOnAxis: axis direction is not normalized (norm=%f)." (norm d)
     else mret tt) ;;
  t ← load this;
  d ← load direction;
  store this (scale (dot t d / squaredNorm d) d).

(** [void Vec::projectOnPlane(const Vec& normal)]. The right-hand side is
    a temporary, complete before [operator-=] touches [*this]. *)
Definition projectOnPlane (QT_NO_DEBUG : bool) (this normal : loc) : M F unit :=
  (if QT_NO_DEBUG then mret tt
   else
     n ← load normal;
     if squaredNorm n <? s_eps
     then qWarning "Vec::projectOnPlane: plane normal is not normalized (norm=%f)." (norm n)
     else mret tt) ;;
  t ← load this;
  n ← load normal;
  let tmp := scale (dot t n / squaredNorm n) n in
  t' ← load this;
  store this (minus t' tmp).
End Methods.

(** ** The element tree (QDom) and the text of numbers (QString, ostream) *)

(** An attributed element: a tag name and attributes looked up by name. *)
Record QDomElement : Type := mkElement {
  tagName : string;
  attributes : gmap string string
}.

(** The document is only the factory of elements: [createElement] returns a
    new element that is attached nowhere. *)
Record QDomDocument : Type := mkDocument {
  doctype : string;
  documentElement : option QDomElement
}.

(** [QDomDocument::createElement(tagName)]: an element with that tag and no
    attribute. *)
Definition createElement (document : QDomDocument) (name : string) : QDomElement :=
  mkElement name ∅.

(** [QDomElement::setAttribute(name, value)]: adds the attribute, or
    replaces its value. *)
Definition setAttribute (name value : string) (de : QDomElement) : QDomElement :=
  mkElement (tagName de) (<[name := value]> (attributes de)).

(** How numbers become text and back: [QString::number(double)],
    [QString::toDouble(bool* ok)] ([None] when [ok] is false) and the text
    [ostream << double] writes. *)
Class QtText (F : Type) : Type := {
  QString_number : F → string;
  QString_toDouble : string → option F;
  ostream_double : F → string
}.

Section Serialisation.
Context {F : Type} `{Scalar F} `{QtText F}.

Definition domWarning (attribute : string) : M F unit :=
  λ w, (tt, mkWorld (heap w) (diagnostics w ++ [DomWarning attribute])).

(** Modelled from the spec: [DomUtils::floatFromDom] of [domUtils.h]
    (section 6, [getNumericAttribute]: "returns the attribute's value as a
    number, or [defaultValue] if absent/unparsable"; section 7: the
    fallback is "optionally accompanied by a diagnostic", which the
    comments of [vec.cpp] promise: "a warning is displayed"). *)
Definition floatFromDom (e : QDomElement) (attribute : string) (defValue : F) : M F F :=
  match attributes e !! attribute with
  | Some s =>
      match QString_toDouble s with
      | Some c => mret c
      | None => domWarning attribute ;; mret defValue
      end
  | None => domWarning attribute ;; mret defValue
  end.

(** [QStringList attribute; attribute << "x" << "y" << "z";] *)
Definition attribute : list string := ["x"; "y"; "z"].

(** [for (int i = ..; i < attribute.size(); ++i) v_[i] = floatFromDom(element, attribute[i], 0.0);]
    with [n] the iterations left. Both branches of [UNION_NOT_SUPPORTED]
    assign component [i]. *)
Fixpoint Vec_loop (n i : nat) (element : QDomElement) (v : Vec F) : M F (Vec F) :=
  match n with
  | O => mret v
  | S n' =>
      c ← floatFromDom element (attribute !!! i) s_zero;
      Vec_loop n' (S i) element (set_v i c v)
  end.

(** [Vec::Vec(const QDomElement& element)]. The constructor has no
    initialiser list: [uninit] is whatever the storage held. *)
Definition Vec_ctor (uninit : Vec F) (element : QDomElement) : M F (Vec F) :=
  Vec_loop (length attribute) 0 element uninit.

(** [QDomElement Vec::domElement(const QString& name, QDomDocument& document) const]. *)
Definition domElement (this : loc) (name : string) (document : QDomDocument)
  : M F QDomElement :=
  let de := createElement document name in
  t ← load this;
  let de := setAttribute "x" (QString_number (x t)) de in
  t ← load this;
  let de := setAttribute "y" (QString_number (y t)) de in
  t ← load this;
  let de := setAttribute "z" (QString_number (z t)) de in
  mret de.

(** [void Vec::initFromDOMElement(const QDomElement& element)]:
    [const Vec v(element); *this = v;]. *)
Definition initFromDOMElement (uninit : Vec F) (this : loc) (element : QDomElement)
  : M F unit :=
  v ← Vec_ctor uninit element;
  store this v.

(** The spec's description of [initFromElement]: a fresh value is
    constructed from the element, then copied into the existing vector. *)
Definition construct_then_assign (fresh : Vec F) (this : loc) (element : QDomElement)
  : M F unit :=
  λ w, let '(v, w') := Vec_ctor fresh element w in
       (tt, mkWorld (<[this := v]> (heap w')) (diagnostics w')).

(** An output stream is the text written to it. *)
Definition ostream : Type := string.

Definition put_double (o : ostream) (c : F) : ostream := o +:+ ostream_double c.
Definition put_char (o : ostream) (c : ascii) : ostream := o +:+ String c "".

Definition TAB : ascii := "009"%char.

(** [ostream& operator<<(ostream& o, const Vec& v)]. *)
Definition operator_lshift (o : ostream) (v : Vec F) : ostream :=
  put_double (put_char (put_double (put_char (put_double o (x v)) TAB) (y v)) TAB) (z v).
End Serialisation.

(** ** The text of a [double]

    [QString::number(double n, char format = 'g', int precision = 6)] is
    called with its default arguments, and an [ostream] in its initial
    state writes a [double] the same way: the general format of [printf]'s
    [%g] with six significant digits. [QString::toDouble] reads a decimal
    numeral and rounds it to the nearest [double]. *)

(** Decimal digits of a positive integer. *)
Fixpoint ndigits_go (fuel : nat) (n : Z) : Z :=
  match fuel with
  | O => 0
  | S fuel' => if n <? 10 then 1 else 1 + ndigits_go fuel' (n / 10)
  end.

Definition ndigits (n : Z) : Z := ndigits_go (S (Z.to_nat (Z.log2 n))) n.

(** The finite double [m * 2^e] has [e >= -1074], so [m * 2^e * 10^1074]
    is an integer. *)
Definition scaled (m : positive) (e : Z) : Z := Z.pos m * 5 ^ 1074 * 2 ^ (1074 + e).

(** [V > 0] to six significant decimal digits, ties to even:
    [(D, k)] with [V] about [D * 10^k] and [10^5 <= D < 10^6]. *)
Definition round_sig6 (V : Z) : Z * Z :=
  let k := ndigits V - 6 in
  if k <=? 0 then (V * 10 ^ (- k), k)
  else
    let q := V / 10 ^ k in
    let r := V mod 10 ^ k in
    let half := 5 * 10 ^ (k - 1) in
    let q' := if (half <? r) || ((r =? half) && Z.odd q) then q + 1 else q in
    if q' =? 10 ^ 6 then (10 ^ 5, k + 1) else (q', k).

Fixpoint strip_trailing_zeros (s : string) : string :=
  match s with
  | EmptyString => EmptyString
  | String c s' =>
      match strip_trailing_zeros s' with
      | EmptyString => if Ascii.eqb c "0" then EmptyString else String c EmptyString
      | r => String c r
      end
  end.

Fixpoint zeros (n : nat) : string :=
  match n with O => EmptyString | S n' => String "0" (zeros n') end.

Definition with_point (int frac : string) : string :=
  match frac with
  | EmptyString => int
  | _ => int +:+ "." +:+ frac
  end.

(** The exponent of the scientific style: a sign and at least two digits. *)
Definition exponent_text (X : Z) : string :=
  (if X <? 0 then "e-" else "e+") +:+
  (if Z.abs X <? 10 then "0" else "") +:+ pretty (Z.abs_N X).

(** [%g] on the six digits [D] of a number [d.ddddd * 10^X]: scientific
    style when [X < -4] or [X >= 6], fixed otherwise, trailing zeros (and a
    bare point) removed. *)
Definition render_g (D X : Z) : string :=
  let ds := pretty (Z.to_N D) in
  if (X <? -4) || (6 <=? X) then
    with_point (substring 0 1 ds) (strip_trailing_zeros (substring 1 5 ds)) +:+ exponent_text X
  else if X <? 0 then
    "0." +:+ zeros (Z.to_nat (- X - 1)) +:+ strip_trailing_zeros ds
  else
    let k := Z.to_nat (X + 1) in
    with_point (substring 0 k ds) (strip_trailing_zeros (substring k (6 - k) ds)).

(** [QString::number(c)], and what [ostream << c] writes. A [spec_float]
    NaN has no sign, so the text of every NaN is ["nan"]; the sign that a
    stream may print in front of it is not represented. *)
Definition number_g6 (c : float) : string :=
  match Prim2SF c with
  | S754_nan => "nan"
  | S754_infinity s => if s then "-inf" else "inf"
  | S754_zero s => if s then "-0" else "0"
  | S754_finite s m e =>
      let '(D, k) := round_sig6 (scaled m e) in
      (if s then "-" else "") +:+ render_g D (k + 5 - 1074)
  end.

(** The value of a decimal digit. *)
Definition digit_of (c : ascii) : option Z :=
  let n := Z.of_nat (nat_of_ascii c) in
  if (48 <=? n) && (n <=? 57) then Some (n - 48) else None.

Definition is_space (c : ascii) : bool :=
  let n := nat_of_ascii c in
  (n =? 32)%nat || ((9 <=? n)%nat && (n <=? 13)%nat).

(** A maximal run of digits: the value accumulated on [acc], how many
    digits were read, and the rest. *)
Fixpoint read_digits (s : string) (acc cnt : Z) : Z * Z * string :=
  match s with
  | EmptyString => (acc, cnt, s)
  | String c s' =>
      match digit_of c with
      | Some d => read_digits s' (10 * acc + d) (cnt + 1)
      | None => (acc, cnt, s)
      end
  end.

Definition read_sign (s : string) : bool * string :=
  match s with
  | String "-" s' => (true, s')
  | String "+" s' => (false, s')
  | _ => (false, s)
  end.

Fixpoint skip_spaces (s : string) : string :=
  match s with
  | String c s' => if is_space c then skip_spaces s' else s
  | EmptyString => s
  end.

Fixpoint drop_final_spaces (s : string) : string :=
  match s with
  | EmptyString => EmptyString
  | String c s' =>
      match drop_final_spaces s' with
      | EmptyString => if is_space c then EmptyString else String c EmptyString
      | r => String c r
      end
  end.

(** White space around a numeral is ignored. *)
Definition trimmed (s : string) : string := drop_final_spaces (skip_spaces s).

(** [digits [. digits] [(e|E) [sign] digits]], with a digit before or
    after the point, as [(N, E)]: the number [N * 10^E]. *)
Definition read_decimal (s : string) : option (Z * Z) :=
  let '(ip, ni, r1) := read_digits s 0 0 in
  let '(fp, nf, r2) :=
    match r1 with
    | String "." r => read_digits r ip 0
    | _ => (ip, 0, r1)
    end in
  if ni + nf =? 0 then None
  else
    match r2 with
    | EmptyString => Some (fp, - nf)
    | String c r =>
        if Ascii.eqb c "e" || Ascii.eqb c "E" then
          let '(neg, r3) := read_sign r in
          match read_digits r3 0 0 with
          | (ex, ne, EmptyString) =>
              if ne =? 0 then None else Some (fp, (if neg then - ex else ex) - nf)
          | _ => None
          end
        else None
    end.

(** [N * 10^E] rounded to the nearest double, ties to even. *)
Definition nearest_double (neg : bool) (N E : Z) : spec_float :=
  match N with
  | Z.pos n =>
      if 0 <=? E then binary_normalize 53 1024 ((if neg then Z.neg n else Z.pos n) * 10 ^ E) 0 false
      else SFdiv 53 1024 (S754_finite neg n 0) (S754_finite false (Z.to_pos (10 ^ (- E))) 0)
  | _ => S754_zero neg
  end.

(** [QString::toDouble]: ["nan"], ["inf"], ["+inf"], ["-inf"] or a decimal
    numeral; a numeral beyond the range of [double] is refused. *)
Definition toDouble (s : string) : option float :=
  let t := trimmed s in
  if String.eqb t "nan" then Some nan
  else if String.eqb t "inf" || String.eqb t "+inf" then Some infinity
  else if String.eqb t "-inf" then Some neg_infinity
  else
    let '(neg, body) := read_sign t in
    match read_decimal body with
    | Some (N, E) =>
        match nearest_double neg N E with
        | S754_infinity _ => None
        | r => Some (SF2Prim r)
        end
    | None => None
    end.

#[export] Instance float_text : QtText float := {|
  QString_number := number_g6;
  QString_toDouble := toDouble;
  ostream_double := number_g6
|}.

(** ** Vocabulary of the statements *)

Section Vocabulary.
Context {F : Type} `{Scalar F} `{QtText F}.
#[local] Open Scope scalar_scope.

(** What a call of either method appends to the warning channel. *)
Definition projection_warnings (QT_NO_DEBUG : bool) (format : string) (d : Vec F)
  : list (Diagnostic F) :=
  if QT_NO_DEBUG then []
  else if squaredNorm d <? s_eps then [QWarning format (norm d)] else [].

(** The number an element holds under an attribute name, 0.0 standing
    in for an attribute that is absent or is not a number. *)
Definition read_attribute (e : QDomElement) (a : string) : F :=
  match attributes e !! a with
  | Some s => match QString_toDouble s with Some c => c | None => s_zero end
  | None => s_zero
  end.

Definition attribute_warnings (e : QDomElement) (a : string) : list (Diagnostic F) :=
  match attributes e !! a with
  | Some s => match QString_toDouble s with Some _ => [] | None => [DomWarning a] end
  | None => [DomWarning a]
  end.

(** A component written as text and read again. *)
Definition through_text (c : F) : F :=
  match QString_toDouble (QString_number c) with Some c' => c' | None => s_zero end.

End Vocabulary.

(** ** Vocabulary of the texts of numbers *)

(** A decimal digit. *)
Definition is_digit (c : ascii) : bool :=
  match digit_of c with Some _ => true | None => false end.

(** A string of decimal digits. *)
Fixpoint all_digits (s : string) : bool :=
  match s with
  | EmptyString => true
  | String c s' => is_digit c && all_digits s'
  end.

(** The number a string of digits denotes, continuing from [acc]. *)
Fixpoint digits_value (s : string) (acc : Z) : Z :=
  match s with
  | EmptyString => acc
  | String c s' =>
      digits_value s' (10 * acc + match digit_of c with Some d => d | None => 0 end)
  end.

(** The length of a string, as an integer. *)
Definition slen (s : string) : Z := Z.of_nat (String.length s).

(** A string without white space. *)
Fixpoint plain (s : string) : bool :=
  match s with
  | EmptyString => true
  | String c s' => negb (is_space c) && plain s'
  end.

(** The tail of a numeral: nothing, or an exponent. *)
Definition tail_reads (t : string) (E : Z) : Prop :=
  (t = "" ∧ E = 0)
  ∨ ∃ (neg : bool) (ds : string),
      t = String "e" (String (if neg then "-" else "+")%char ds)
      ∧ all_digits ds = true ∧ ds ≠ ""
      ∧ E = (if neg then - digits_value ds 0 else digits_value ds 0).

(** The double [toDouble] gives for the decimal [N * 10^E] with the sign
    [neg], unless the decimal is beyond the range of the doubles. *)
Definition rounded_decimal (neg : bool) (N E : Z) : option float :=
  match nearest_double neg N E with
  | S754_infinity _ => None
  | r => Some (SF2Prim r)
  end.

(** ** Vocabulary of rounding

    The arithmetic of [double] is that of [SpecFloat]: an operation is
    computed exactly and rounded by [binary_round_aux], which shifts the
    mantissa right, keeping a round bit and a sticky bit, and rounds to
    nearest, ties to even. *)

(** Where [A/B] lies between [m] and [m+1]. *)
Definition place (A B m : Z) : location :=
  if A - m * B =? 0 then loc_Exact else loc_Inexact (2 * (A - m * B) ?= B).

(** A shift record holds the integer part of [A/B] and the place of
    [A/B] above it. *)
Definition represents (mrs : shr_record) (A B : Z) : Prop :=
  0 < B ∧ 0 ≤ shr_m mrs ∧ shr_m mrs * B ≤ A < (shr_m mrs + 1) * B
  ∧ loc_of_shr_record mrs = place A B (shr_m mrs).

(** The double a rounded mantissa and exponent denote. *)
Definition round_result (sx : bool) (m e : Z) : spec_float :=
  match m with
  | Z0 => S754_zero sx
  | Zpos p => if e <=? emax - prec then S754_finite sx p e else S754_infinity sx
  | Zneg _ => S754_nan
  end.

(** The value of a finite double in units of [2^-1074], of which every
    finite double is an integer multiple. *)
Definition SFfixed (f : spec_float) : Z :=
  match f with
  | S754_finite s m e => cond_Zopp s (Z.pos m * 2 ^ (e + 1074))
  | _ => 0
  end.

(** The spacing of the doubles around a finite double, in the same units. *)
Definition SFquantum (f : spec_float) : Z :=
  match f with
  | S754_finite _ _ e => 2 ^ (e + 1074)
  | _ => 1
  end.

Definition SFfinite (f : spec_float) : bool :=
  match f with
  | S754_zero _ | S754_finite _ _ _ => true
  | _ => false
  end.


(** The finite double's value in units of [2^-1074]. *)
Definition fixed (c : float) : Z := SFfixed (Prim2SF c).

(** A finite double: a zero, a subnormal or a normal number. *)
Definition finite (c : float) : bool := SFfinite (Prim2SF c).

(** The spacing of the doubles around a finite double, in units of
    [2^-1074]. *)
Definition quantum (c : float) : Z := SFquantum (Prim2SF c).

(** How a component comes back from its text: a finite non-zero double
    as a finite double within one part in [10^5] of it, anything else as
    itself. *)
Definition read_back_close (c c' : float) : Prop :=
  match Prim2SF c with
  | S754_finite _ _ _ =>
      finite c' = true ∧ 10 ^ 5 * Z.abs (fixed c' - fixed c) ≤ Z.abs (fixed c)
  | _ => c' = c
  end.

(** What the text [t] written for a double [c] is. For a finite non-zero
    [c]: the decimal numeral of [D * 10^(k-1074)], where the six digits
    [D] at the scale [10^k] are nearest to [|c| * 10^1074] (that is
    [scaled m e]), with the sign of [c]; it reads back as a finite double
    [c'] of that sign within half a quantum of the decimal. For any other
    [c]: a text that reads back as [c]. *)
Definition six_digit_numeral (c : float) (t : string) : Prop :=
  match Prim2SF c with
  | S754_finite neg m e =>
      ∃ (D k N : Z) (j : nat) (body : string) (c' : float),
        10 ^ 5 ≤ D < 10 ^ 6 ∧ 0 < k
        ∧ 2 * Z.abs (scaled m e - D * 10 ^ k) ≤ 10 ^ k
        ∧ read_sign t = (neg, body)
        ∧ read_decimal body = Some (N, k - 1074 + Z.of_nat j)
        ∧ N * 10 ^ Z.of_nat j = D
        ∧ toDouble t = Some c' ∧ finite c' = true
        ∧ fixed c' = cond_Zopp neg (Z.abs (fixed c'))
        ∧ 2 * Z.abs (Z.abs (fixed c') * 5 ^ 1074 - D * 10 ^ k) ≤ quantum c' * 5 ^ 1074
        ∧ 10 ^ 5 * Z.abs (fixed c' - fixed c) ≤ Z.abs (fixed c)
  | _ => toDouble t = Some c
  end.

(** ** Vocabulary of the rounding errors of the projection *)

(** Half the relative spacing of the normal doubles. *)
Definition half_ulp : R := (/ 2 ^ 53)%R.

(** [E] is [z] up to [k] roundings: [E = Φ z] with
    [(1 - u)^k <= Φ <= (1 + u)^k]. *)
Definition near (k : nat) (E z : R) : Prop :=
  ∃ Φ : R, ((1 - half_ulp) ^ k <= Φ <= (1 + half_ulp) ^ k)%R ∧ E = (Φ * z)%R.

(** A normal double: finite, with a full mantissa of 53 bits. *)
Definition normal (c : float) : bool :=
  finite c && (2 ^ 52 * quantum c <=? Z.abs (fixed c)).








(** ** Scenarios *)

(** [Vec(1,2,3).projectOnAxis(Vec(1,0,0))]: the receiver at 1, the axis at 2. *)
Definition axis_scenario : World float :=
  mkWorld (<[1%positive := mkVec 1 2 3]> (<[2%positive := mkVec 1 0 0]> ∅))%float [].

(** [Vec(1,1,1).projectOnPlane(Vec(0,0,1))]. *)
Definition plane_scenario : World float :=
  mkWorld (<[1%positive := mkVec 1 1 1]> (<[2%positive := mkVec 0 0 1]> ∅))%float [].

(** The null vector as axis or normal. *)
Definition degenerate_scenario : World float :=
  mkWorld (<[1%positive := mkVec 1 2 3]> (<[2%positive := mkVec 0 0 0]> ∅))%float [].


(** One object, passed to its own method: [v.projectOnPlane(v)]. *)
Definition alias_scenario : World float :=
  mkWorld (<[1%positive := mkVec 1 1 1]> ∅)%float [].

(** [Vec(1.5, -2.25, 0)], the vector the spec serialises under the tag ["pos"]. *)
Definition pos_scenario : World float :=
  mkWorld (<[1%positive := mkVec 1.5 (-2.25) 0]> ∅)%float [].

(** A component with seven significant digits. *)
Definition digits_scenario : World float :=
  mkWorld (<[1%positive := mkVec 0.1234567 0 0]> ∅)%float [].


Definition myDocument : QDomDocument := mkDocument "myDocument" None.

(** Storage that held something else before a constructor ran. *)
Definition garbage : Vec float := mkVec 7%float 8%float 9%float.

(** [<pos x="1.5" z="3" />] *)
Definition missing_y : QDomElement :=
  mkElement "pos" (<["x" := "1.5"]> (<["z" := "3"]> ∅)).

(** [<pos x="1.5" y="two" z="3" />] *)
Definition malformed_y : QDomElement :=
  mkElement "pos" (<["x" := "1.5"]> (<["y" := "two"]> (<["z" := "3"]> ∅))).

(** ** Vocabulary of the further properties *)

(** A vector of doubles whose three components are zeros, of either sign. *)
Definition null_vector (d : Vec float) : Prop :=
  PrimFloat.is_zero (x d) = true ∧ PrimFloat.is_zero (y d) = true
  ∧ PrimFloat.is_zero (z d) = true.

(** A vector of doubles whose three components are NaN. *)
Definition nan_vector (v : Vec float) : Prop :=
  PrimFloat.is_nan (x v) = true ∧ PrimFloat.is_nan (y v) = true
  ∧ PrimFloat.is_nan (z v) = true.

(** A zero or a NaN: what a product with a zero can be. *)
Definition zero_or_nan (f : spec_float) : Prop :=
  match f with
  | S754_zero _ | S754_nan => True
  | _ => False
  end.

(** The null axis [(0, -0, 0)] and a receiver with an infinite component. *)
Definition null_scenario : World float :=
  mkWorld (<[1%positive := mkVec infinity 2 (-3)]>
             (<[2%positive := mkVec 0 (-0) 0]> ∅))%float [].

(** An axis with a NaN component. *)
Definition nan_scenario : World float :=
  mkWorld (<[1%positive := mkVec 1 2 3]> (<[2%positive := mkVec 1 nan 0]> ∅))%float [].

(** The number an element holds under an attribute name, when the
    attribute is present and its text is a number. *)
Definition attribute_number {F : Type} `{QtText F} (e : QDomElement) (a : string)
  : option F :=
  attributes e !! a ≫= QString_toDouble.

(** [<vector z="3" w="9" x="1.5" />]: another tag, another order, one more
    attribute. *)
Definition reordered : QDomElement :=
  mkElement "vector" (<["z" := "3"]> (<["w" := "9"]> (<["x" := "1.5"]> ∅))).

(** [Vec(1.5, -2.25, 0)] at 1 and [Vec(7, 8, 9)] at 2. *)
Definition two_vectors_scenario : World float :=
  mkWorld (<[1%positive := mkVec 1.5 (-2.25) 0]> (<[2%positive := mkVec 7 8 9]> ∅))%float [].

(** * Properties *)

(** ** Running the projection methods *)

(** Unfolds the method monad down to state-passing functions. *)
Ltac run_methods :=
  unfold mbind, M_bind, mret, M_ret, load, store, qWarning, domWarning;
  cbn [heap diagnostics fst snd].

Section ProjectionFacts.
Context {F : Type} `{Scalar F}.
#[local] Open Scope scalar_scope.

Lemma dot_self (d : Vec F) : dot d d = squaredNorm d.
Proof. reflexivity. Qed.

Lemma projectOnAxis_run (QT_NO_DEBUG : bool) (this direction : loc) (w : World F) :
  projectOnAxis QT_NO_DEBUG this direction w =
    (tt, mkWorld
           (<[this := scale (dot (heap w !!! this) (heap w !!! direction)
                             / squaredNorm (heap w !!! direction))
                        (heap w !!! direction)]> (heap w))
           (diagnostics w ++
              projection_warnings QT_NO_DEBUG
                "Vec::projectOnAxis: axis direction is not normalized (norm=%f)."
                (heap w !!! direction))).
Proof.
  destruct w as [h ds]. unfold projectOnAxis, projection_warnings.
  destruct QT_NO_DEBUG; run_methods.
  - by rewrite app_nil_r.
  - destruct (squaredNorm (h !!! direction) <? s_eps); run_methods;
      [done | by rewrite app_nil_r].
Qed.

Lemma projectOnPlane_run (QT_NO_DEBUG : bool) (this normal : loc) (w : World F) :
  projectOnPlane QT_NO_DEBUG this normal w =
    (tt, mkWorld
           (<[this := minus (heap w !!! this)
                        (scale (dot (heap w !!! this) (heap w !!! normal)
                                / squaredNorm (heap w !!! normal))
                           (heap w !!! normal))]> (heap w))
           (diagnostics w ++
              projection_warnings QT_NO_DEBUG
                "Vec::projectOnPlane: plane normal is not normalized (norm=%f)."
                (heap w !!! normal))).
Proof.
  destruct w as [h ds]. unfold projectOnPlane, projection_warnings.
  destruct QT_NO_DEBUG; run_methods.
  - by rewrite app_nil_r.
  - destruct (squaredNorm (h !!! normal) <? s_eps); run_methods;
      [done | by rewrite app_nil_r].
Qed.

Lemma projection_warnings_nondegenerate `{!ScalarOrder F} b format (d : Vec F) :
  (s_eps <? squaredNorm d) = true → projection_warnings b format d = [].
Proof.
  intros Hd. unfold projection_warnings.
  destruct b; [done |]. by rewrite (s_ltb_asym _ _ Hd).
Qed.
End ProjectionFacts.

(** ** The order of the two scalar instances *)

Lemma SFcompare_Lt_swap (a b : spec_float) :
  SFcompare a b = Some Lt → SFcompare b a = Some Gt.
Proof.
  destruct a as [sa | sa | | sa ma ea], b as [sb | sb | | sb mb eb]; cbn;
    try discriminate; try (destruct sa; discriminate); try (destruct sb; discriminate);
    try (destruct sa, sb; (discriminate || reflexivity)).
  pose proof (Pos.compare_cont_antisym ma mb Eq) as Hm. cbn in Hm.
  destruct sa, sb; try discriminate; try reflexivity;
    rewrite (Z.compare_antisym ea eb);
    (destruct (ea ?= eb); cbn; try discriminate; try reflexivity);
    rewrite <- Hm;
    destruct (Pos.compare_cont Eq ma mb); cbn; (discriminate || reflexivity).
Qed.

Lemma float_ltb_asym (a b : float) :
  PrimFloat.ltb a b = true → PrimFloat.ltb b a = false.
Proof.
  rewrite !ltb_spec. unfold SFltb. intros Hab.
  destruct (SFcompare (Prim2SF a) (Prim2SF b)) as [[]|] eqn:E; try discriminate.
  by rewrite (SFcompare_Lt_swap _ _ E).
Qed.

#[export] Instance float_order : ScalarOrder float.
Proof. split. exact float_ltb_asym. Qed.

(** ** The projections *)

(** C1. For a direction [d] whose squared norm exceeds 1e-10,
    [projectOnAxis(d)] leaves in the receiver [((v.d) / (d.d)) * d], [v]
    being the receiver's value before the call, and prints nothing. *)
Theorem projectOnAxis_projects {F : Type} `{ScalarOrder F}
    (QT_NO_DEBUG : bool) (this direction : loc) (w : World F) :
  (s_eps <? squaredNorm (heap w !!! direction))%sc = true →
  heap (projectOnAxis QT_NO_DEBUG this direction w).2 !!! this
    = scale (dot (heap w !!! this) (heap w !!! direction)
             / dot (heap w !!! direction) (heap w !!! direction))%sc
        (heap w !!! direction)
  ∧ diagnostics (projectOnAxis QT_NO_DEBUG this direction w).2 = diagnostics w.
Proof.
  intros Hd. rewrite projectOnAxis_run. cbn [snd heap diagnostics]. split.
  - by rewrite lookup_total_insert_eq, dot_self.
  - by rewrite (projection_warnings_nondegenerate _ _ _ Hd), app_nil_r.
Qed.

(** C1, the scenario of the spec: [Vec(1,2,3).projectOnAxis(Vec(1,0,0))]
    is [(1,0,0)]. *)
Lemma projectOnAxis_scenario :
  (s_eps <? squaredNorm (heap axis_scenario !!! 2%positive))%sc = true
  ∧ heap (projectOnAxis false 1 2 axis_scenario).2 !!! 1%positive
    = mkVec 1%float 0%float 0%float
  ∧ diagnostics (projectOnAxis false 1 2 axis_scenario).2 = [].
Proof.
  assert (Hnd : (s_eps <? squaredNorm (heap axis_scenario !!! 2%positive))%sc = true)
    by (vm_compute; reflexivity).
  split; [exact Hnd |].
  destruct (projectOnAxis_projects false 1 2 axis_scenario Hnd) as [Hv Hd].
  split; [rewrite Hv; vm_compute; reflexivity | exact Hd].
Defined.

(** C2. For a normal [n] whose squared norm exceeds 1e-10,
    [projectOnPlane(n)] leaves in the receiver [v - ((v.n) / (n.n)) * n]
    and prints nothing. *)
Theorem projectOnPlane_projects {F : Type} `{ScalarOrder F}
    (QT_NO_DEBUG : bool) (this normal : loc) (w : World F) :
  (s_eps <? squaredNorm (heap w !!! normal))%sc = true →
  heap (projectOnPlane QT_NO_DEBUG this normal w).2 !!! this
    = minus (heap w !!! this)
        (scale (dot (heap w !!! this) (heap w !!! normal)
                / dot (heap w !!! normal) (heap w !!! normal))%sc
           (heap w !!! normal))
  ∧ diagnostics (projectOnPlane QT_NO_DEBUG this normal w).2 = diagnostics w.
Proof.
  intros Hn. rewrite projectOnPlane_run. cbn [snd heap diagnostics]. split.
  - by rewrite lookup_total_insert_eq, dot_self.
  - by rewrite (projection_warnings_nondegenerate _ _ _ Hn), app_nil_r.
Qed.

(** C2, the scenario of the spec: [Vec(1,1,1).projectOnPlane(Vec(0,0,1))]
    is [(1,1,0)]. *)
Lemma projectOnPlane_scenario :
  (s_eps <? squaredNorm (heap plane_scenario !!! 2%positive))%sc = true
  ∧ heap (projectOnPlane false 1 2 plane_scenario).2 !!! 1%positive
    = mkVec 1%float 1%float 0%float
  ∧ diagnostics (projectOnPlane false 1 2 plane_scenario).2 = [].
Proof.
  assert (Hnd : (s_eps <? squaredNorm (heap plane_scenario !!! 2%positive))%sc = true)
    by (vm_compute; reflexivity).
  split; [exact Hnd |].
  destruct (projectOnPlane_projects false 1 2 plane_scenario Hnd) as [Hv Hd].
  split; [rewrite Hv; vm_compute; reflexivity | exact Hd].
Defined.

(** C5. Whatever the direction or normal, a projection returns: it
    appends one [qWarning] line carrying [norm()] when the build is a debug
    build and the squared norm is below 1e-10, nothing otherwise, and then
    assigns the quotient formula to the receiver in every case. With the
    null vector the division is 0/0 and the receiver ends as NaNs. *)
Theorem projections_never_fail {F : Type} `{Scalar F}
    (QT_NO_DEBUG : bool) (this arg : loc) (w : World F) :
  projectOnAxis QT_NO_DEBUG this arg w =
    (tt, mkWorld
           (<[this := scale (dot (heap w !!! this) (heap w !!! arg)
                             / squaredNorm (heap w !!! arg))%sc (heap w !!! arg)]> (heap w))
           (diagnostics w ++
              if QT_NO_DEBUG then []
              else if (squaredNorm (heap w !!! arg) <? s_eps)%sc
                   then [QWarning "Vec::projectOnAxis: axis direction is not normalized (norm=%f)."
                           (norm (heap w !!! arg))]
                   else []))
  ∧ projectOnPlane QT_NO_DEBUG this arg w =
    (tt, mkWorld
           (<[this := minus (heap w !!! this)
                        (scale (dot (heap w !!! this) (heap w !!! arg)
                                / squaredNorm (heap w !!! arg))%sc (heap w !!! arg))]> (heap w))
           (diagnostics w ++
              if QT_NO_DEBUG then []
              else if (squaredNorm (heap w !!! arg) <? s_eps)%sc
                   then [QWarning "Vec::projectOnPlane: plane normal is not normalized (norm=%f)."
                           (norm (heap w !!! arg))]
                   else []))
  ∧ projectOnAxis false 1 2 degenerate_scenario =
    (tt, mkWorld
           (<[1%positive := mkVec nan nan nan]> (heap degenerate_scenario))
           [QWarning "Vec::projectOnAxis: axis direction is not normalized (norm=%f)." 0%float])
  ∧ projectOnAxis true 1 2 degenerate_scenario =
    (tt, mkWorld (<[1%positive := mkVec nan nan nan]> (heap degenerate_scenario)) []).
Proof.
  split; [apply projectOnAxis_run |]. split; [apply projectOnPlane_run |].
  split; vm_compute; reflexivity.
Qed.


(** ** Reading and writing elements *)

Section SerialisationFacts.
Context {F : Type} `{Scalar F} `{QtText F}.

Lemma floatFromDom_run (e : QDomElement) (a : string) (w : World F) :
  floatFromDom e a s_zero w =
    (read_attribute e a, mkWorld (heap w) (diagnostics w ++ attribute_warnings e a)).
Proof.
  destruct w as [h ds]. unfold floatFromDom, read_attribute, attribute_warnings.
  destruct (attributes e !! a) as [s|]; [destruct (QString_toDouble s) |];
    run_methods; by rewrite ?app_nil_r.
Qed.

Lemma Vec_ctor_run (uninit : Vec F) (e : QDomElement) (w : World F) :
  Vec_ctor uninit e w =
    (mkVec (read_attribute e "x") (read_attribute e "y") (read_attribute e "z"),
     mkWorld (heap w)
       (diagnostics w ++ attribute_warnings e "x" ++ attribute_warnings e "y"
          ++ attribute_warnings e "z")).
Proof.
  unfold Vec_ctor, attribute. cbn [length Vec_loop].
  unfold mbind at 1, M_bind at 1. rewrite floatFromDom_run.
  unfold mbind at 1, M_bind at 1. rewrite floatFromDom_run.
  unfold mbind at 1, M_bind at 1. rewrite floatFromDom_run.
  cbn. by rewrite <- !app_assoc.
Qed.

Lemma domElement_run (this : loc) (name : string) (document : QDomDocument) (w : World F) :
  domElement this name document w =
    (mkElement name
       (<["z" := QString_number (z (heap w !!! this))]>
          (<["y" := QString_number (y (heap w !!! this))]>
             (<["x" := QString_number (x (heap w !!! this))]> ∅))), w).
Proof. reflexivity. Qed.

Lemma read_attribute_written (name : string) (cx cy cz : F) :
  let de := mkElement name
              (<["z" := QString_number cz]>
                 (<["y" := QString_number cy]> (<["x" := QString_number cx]> ∅))) in
  read_attribute de "x" = through_text cx
  ∧ read_attribute de "y" = through_text cy
  ∧ read_attribute de "z" = through_text cz
  ∧ attribute_warnings de "x"
    = match QString_toDouble (QString_number cx) with Some _ => [] | None => [DomWarning "x"] end
  ∧ attribute_warnings de "y"
    = match QString_toDouble (QString_number cy) with Some _ => [] | None => [DomWarning "y"] end
  ∧ attribute_warnings de "z"
    = match QString_toDouble (QString_number cz) with Some _ => [] | None => [DomWarning "z"] end.
Proof.
  cbn zeta. unfold read_attribute, attribute_warnings, through_text. cbn [attributes].
  rewrite lookup_insert_eq.
  rewrite (lookup_insert_ne _ "z" "y"), lookup_insert_eq by done.
  rewrite (lookup_insert_ne _ "z" "x"), (lookup_insert_ne _ "y" "x"), lookup_insert_eq by done.
  done.
Qed.
End SerialisationFacts.

Lemma string_app_assoc (a b c : string) : (a +:+ b) +:+ c = a +:+ (b +:+ c).
Proof.
  induction a as [|ch a IH]; [reflexivity |].
  change (String ch ((a +:+ b) +:+ c) = String ch (a +:+ b +:+ c)). by rewrite IH.
Qed.

(** C4. The constructor returns for every element, and fills component
    [i] from attribute [i] of ["x"], ["y"], ["z"] alone: 0.0 when that
    attribute is absent, 0.0 when its text is not a number, the number
    otherwise. It changes no object. *)
Theorem Vec_ctor_fallback {F : Type} `{Scalar F} `{QtText F}
    (uninit : Vec F) (e : QDomElement) (w : World F) (i : nat) (a : string) :
  attribute !! i = Some a →
  (attributes e !! a = None → get_v i (Vec_ctor uninit e w).1 = s_zero)
  ∧ (∀ s, attributes e !! a = Some s → QString_toDouble s = None →
          get_v i (Vec_ctor uninit e w).1 = s_zero)
  ∧ (∀ s c, attributes e !! a = Some s → QString_toDouble s = Some c →
            get_v i (Vec_ctor uninit e w).1 = c)
  ∧ heap (Vec_ctor uninit e w).2 = heap w.
Proof.
  intros Ha. rewrite Vec_ctor_run. cbn [fst snd heap].
  assert (Hi : get_v i (mkVec (read_attribute e "x") (read_attribute e "y")
                          (read_attribute e "z")) = read_attribute e a).
  { destruct i as [|[|[|i]]]; cbn in Ha; by simplify_eq. }
  rewrite Hi. unfold read_attribute. repeat split.
  - by intros ->.
  - by intros s -> ->.
  - by intros s c -> ->.
Qed.

(** C4, the scenario of the spec: an element without ["y"] gives
    [y = 0.0] and the element's [x] and [z]. *)
Lemma Vec_ctor_missing_y :
  attribute !! 1%nat = Some "y"
  ∧ attributes missing_y !! "y" = None
  ∧ y (Vec_ctor garbage missing_y pos_scenario).1 = 0%float
  ∧ x (Vec_ctor garbage missing_y pos_scenario).1 = 1.5%float
  ∧ z (Vec_ctor garbage missing_y pos_scenario).1 = 3%float.
Proof.
  assert (Hy : attributes missing_y !! "y" = None) by reflexivity.
  split; [reflexivity |]. split; [exact Hy |]. split; [| split].
  - exact (proj1 (Vec_ctor_fallback garbage missing_y pos_scenario 1 "y" eq_refl) Hy).
  - refine (proj1 (proj2 (proj2
      (Vec_ctor_fallback garbage missing_y pos_scenario 0 "x" eq_refl))) "1.5" _ _ _);
      vm_compute; reflexivity.
  - refine (proj1 (proj2 (proj2
      (Vec_ctor_fallback garbage missing_y pos_scenario 2 "z" eq_refl))) "3" _ _ _);
      vm_compute; reflexivity.
Defined.

(** An attribute that is not a number: [<pos x="1.5" y="two" z="3" />] is
    read as [(1.5, 0, 3)], with one warning, about ["y"]. *)
Example Vec_ctor_malformed_y :
  Vec_ctor garbage malformed_y pos_scenario
    = (mkVec 1.5%float 0%float 3%float,
       mkWorld (heap pos_scenario) [DomWarning "y"]).
Proof. vm_compute. reflexivity. Qed.

(** C6. [v.initFromDOMElement(e)] ends in the state reached by
    constructing a fresh vector from [e] and assigning it to [v]: the same
    objects and the same warnings, whatever [v] held and whatever the two
    constructors found in their storage; [v] ends as the element's three
    numbers. *)
Theorem initFromDOMElement_is_construct_then_assign {F : Type} `{Scalar F} `{QtText F}
    (uninit fresh : Vec F) (this : loc) (e : QDomElement) (w : World F) :
  initFromDOMElement uninit this e w = construct_then_assign fresh this e w
  ∧ heap (initFromDOMElement uninit this e w).2 !!! this
    = mkVec (read_attribute e "x") (read_attribute e "y") (read_attribute e "z").
Proof.
  unfold initFromDOMElement, construct_then_assign, mbind, M_bind, store.
  rewrite !Vec_ctor_run. cbn [fst snd heap diagnostics]. split; [done |].
  by rewrite lookup_total_insert_eq.
Qed.

(** C9. [o << v] appends to the stream the text of [x], one horizontal
    tab (the character of code 9), the text of [y], one horizontal tab and
    the text of [z], and nothing else; for [Vec(1.5, -2.25, 0)] on an empty
    stream, ["1.5<TAB>-2.25<TAB>0"]. *)
Theorem operator_lshift_layout {F : Type} `{QtText F} (o : ostream) (v : Vec F) :
  operator_lshift o v
    = o +:+ ostream_double (x v)
        +:+ String (Ascii.ascii_of_nat 9) (ostream_double (y v)
        +:+ String (Ascii.ascii_of_nat 9) (ostream_double (z v)))
  ∧ operator_lshift "" (mkVec 1.5%float (-2.25)%float 0%float)
    = "1.5" +:+ String (Ascii.ascii_of_nat 9) ("-2.25"
        +:+ String (Ascii.ascii_of_nat 9) "0")
  ∧ Ascii.nat_of_ascii TAB = 9%nat.
Proof.
  split; [| split; vm_compute; reflexivity].
  unfold operator_lshift, put_double, put_char.
  rewrite !string_app_assoc. reflexivity.
Qed.

(** C10, as stated, fails when the normal is the receiver itself:
    [v.projectOnPlane(v)] with [v = (1,1,1)] leaves [(0,0,0)] in [v], the
    object the argument designates. *)
Lemma projectOnPlane_self :
  heap alias_scenario !!! 1%positive = mkVec 1%float 1%float 1%float
  ∧ heap (projectOnPlane true 1 1 alias_scenario).2 !!! 1%positive
    = mkVec 0%float 0%float 0%float.
Proof. split; vm_compute; reflexivity. Qed.

(** C10, amended. [domElement] changes no object and prints nothing; a
    projection changes no object but its receiver, so its argument is
    unchanged whenever it is not the receiver. *)
Theorem methods_frame {F : Type} `{Scalar F} `{QtText F}
    (QT_NO_DEBUG : bool) (this arg : loc) (name : string) (document : QDomDocument)
    (w : World F) :
  (domElement this name document w).2 = w
  ∧ (this ≠ arg →
     heap (projectOnAxis QT_NO_DEBUG this arg w).2 !! arg = heap w !! arg
     ∧ heap (projectOnPlane QT_NO_DEBUG this arg w).2 !! arg = heap w !! arg).
Proof.
  rewrite domElement_run, projectOnAxis_run, projectOnPlane_run.
  cbn [snd heap]. split; [done |]. intros Hne. by rewrite !lookup_insert_ne.
Qed.

(** C10, amended, with the receiver at 1 and the argument [(1,0,0)] at 2. *)
Lemma methods_frame_scenario :
  (1 ≠ 2)%positive
  ∧ (domElement 1 "pos" myDocument axis_scenario).2 = axis_scenario
  ∧ heap (projectOnAxis false 1 2 axis_scenario).2 !! 2%positive
    = Some (mkVec 1%float 0%float 0%float)
  ∧ heap (projectOnPlane false 1 2 axis_scenario).2 !! 2%positive
    = Some (mkVec 1%float 0%float 0%float).
Proof.
  assert (Hne : (1 ≠ 2)%positive) by discriminate.
  split; [exact Hne |].
  destruct (methods_frame false 1 2 "pos" myDocument axis_scenario) as [Hd Hframe].
  destruct (Hframe Hne) as [Ha Hp].
  split; [exact Hd |]. split; [rewrite Ha | rewrite Hp]; reflexivity.
Defined.

(** ** Six significant digits *)

Lemma ndigits_go_spec (fuel : nat) (n : Z) :
  0 < n < 2 ^ Z.of_nat fuel →
  1 ≤ ndigits_go fuel n ∧ 10 ^ (ndigits_go fuel n - 1) ≤ n < 10 ^ ndigits_go fuel n.
Proof.
  revert n. induction fuel as [|fuel IH]; intros n [Hpos Hlt].
  - cbn in Hlt. lia.
  - cbn [ndigits_go]. destruct (Z.ltb_spec n 10) as [Hsmall | Hbig].
    + change (10 ^ (1 - 1)) with 1. change (10 ^ 1) with 10. lia.
    + rewrite Nat2Z.inj_succ, Z.pow_succ_r in Hlt by lia.
      assert (Hq : 0 < n / 10 < 2 ^ Z.of_nat fuel).
      { split; [apply Z.div_str_pos; lia | apply Z.div_lt_upper_bound; lia]. }
      destruct (IH _ Hq) as (Hd & Hlo & Hhi).
      set (d := ndigits_go fuel (n / 10)) in *.
      replace (1 + d - 1) with (Z.succ (d - 1)) by lia.
      replace (1 + d) with (Z.succ d) by lia.
      rewrite !Z.pow_succ_r by lia.
      pose proof (Z.div_mod n 10 ltac:(lia)) as Hn.
      pose proof (Z.mod_pos_bound n 10 ltac:(lia)) as Hr.
      lia.
Qed.

Lemma ndigits_spec (n : Z) :
  0 < n → 1 ≤ ndigits n ∧ 10 ^ (ndigits n - 1) ≤ n < 10 ^ ndigits n.
Proof.
  intros Hn. apply ndigits_go_spec. split; [done |].
  pose proof (Z.log2_spec n Hn) as [_ Hlt]. pose proof (Z.log2_nonneg n).
  rewrite Nat2Z.inj_succ, Z2Nat.id by lia. exact Hlt.
Qed.

Lemma round_sig6_spec (V : Z) :
  10 ^ 6 ≤ V →
  ∃ D k : Z,
    round_sig6 V = (D, k) ∧ 10 ^ 5 ≤ D < 10 ^ 6 ∧ 0 < k
    ∧ 2 * Z.abs (V - D * 10 ^ k) ≤ 10 ^ k.
Proof.
  intros HV. unfold round_sig6.
  destruct (ndigits_spec V ltac:(lia)) as (Hd & Hlo & Hhi).
  set (nd := ndigits V) in *.
  assert (Hnd : 6 < nd).
  { destruct (Z.le_gt_cases nd 6) as [Hle | ?]; [| done].
    pose proof (Z.pow_le_mono_r 10 nd 6 ltac:(lia) Hle). lia. }
  destruct (Z.leb_spec (nd - 6) 0) as [? | Hk]; [lia |].
  set (k := nd - 6) in *. set (P := 10 ^ k).
  assert (HP : 0 < P) by (apply Z.pow_pos_nonneg; lia).
  assert (Hhalf : 2 * (5 * 10 ^ (k - 1)) = P).
  { unfold P. replace k with (Z.succ (k - 1)) at 2 by lia. rewrite Z.pow_succ_r by lia. lia. }
  assert (HloP : 10 ^ 5 * P ≤ V).
  { unfold P. rewrite <- Z.pow_add_r by lia. by replace (5 + k) with (nd - 1) by lia. }
  assert (HhiP : V < 10 ^ 6 * P).
  { unfold P. rewrite <- Z.pow_add_r by lia. by replace (6 + k) with nd by lia. }
  pose proof (Z.div_mod V P ltac:(lia)) as HVqr.
  pose proof (Z.mod_pos_bound V P HP) as Hr.
  set (q := V / P) in *. set (r := V mod P) in *.
  assert (Hq : 10 ^ 5 ≤ q < 10 ^ 6) by nia.
  set (up := (5 * 10 ^ (k - 1) <? r) || ((r =? 5 * 10 ^ (k - 1)) && Z.odd q)).
  assert (Hup : if up then P ≤ 2 * r else 2 * r ≤ P).
  { unfold up. destruct (Z.ltb_spec (5 * 10 ^ (k - 1)) r); cbn; [lia |].
    destruct (Z.eqb_spec r (5 * 10 ^ (k - 1))); cbn; [destruct (Z.odd q) |]; lia. }
  destruct up.
  - destruct (Z.eqb_spec (q + 1) (10 ^ 6)) as [Hcarry | Hnocarry].
    + exists (10 ^ 5), (k + 1). split; [done |]. split; [lia |]. split; [lia |].
      replace (k + 1) with (Z.succ k) by lia. rewrite Z.pow_succ_r by lia. fold P. lia.
    + exists (q + 1), k. split; [done |]. split; [lia |]. split; [lia |]. fold P. lia.
  - destruct (Z.eqb_spec q (10 ^ 6)) as [Hcarry | Hnocarry]; [lia |].
    exists q, k. split; [done |]. split; [lia |]. split; [lia |]. fold P. lia.
Qed.

Lemma finite_double_exponent (c : float) (neg : bool) (m : positive) (e : Z) :
  Prim2SF c = S754_finite neg m e → -1074 ≤ e.
Proof.
  intros Hc. pose proof (Prim2SF_valid c) as Hv. rewrite Hc in Hv.
  cbn [SpecFloat.valid_binary] in Hv. unfold bounded, canonical_mantissa, fexp in Hv.
  apply andb_prop in Hv as [Hcanon _]. apply Z.eqb_eq in Hcanon.
  change (SpecFloat.emin prec emax) with (-1074) in Hcanon.
  rewrite <- Hcanon. apply Z.le_max_r.
Qed.

Lemma scaled_large (m : positive) (e : Z) : -1074 ≤ e → 10 ^ 6 ≤ scaled m e.
Proof.
  intros He. unfold scaled.
  assert (H5 : 10 ^ 6 ≤ 5 ^ 1074) by (apply Z.leb_le; vm_compute; reflexivity).
  assert (H2 : 1 ≤ 2 ^ (1074 + e)) by (apply Z.lt_pred_le, Z.pow_pos_nonneg; lia).
  nia.
Qed.

(** ** Reading back what [render_g] writes *)

Lemma app_cons (c : ascii) (s r : string) : String c s +:+ r = String c (s +:+ r).
Proof. reflexivity. Qed.

Lemma app_nil_l_string (r : string) : "" +:+ r = r.
Proof. reflexivity. Qed.

Lemma app_nil_r_string (s : string) : s +:+ "" = s.
Proof. induction s as [|c s IH]; [done |]. by rewrite app_cons, IH. Qed.

Lemma slen_cons c s : slen (String c s) = 1 + slen s.
Proof. unfold slen. cbn [String.length]. lia. Qed.

Lemma slen_nonneg s : 0 ≤ slen s.
Proof. unfold slen. lia. Qed.

Lemma slen_app s r : slen (s +:+ r) = slen s + slen r.
Proof.
  induction s as [|c s IH]; [rewrite app_nil_l_string; unfold slen; cbn; lia |].
  rewrite app_cons, !slen_cons, IH. lia.
Qed.

Lemma read_digits_app (s r : string) (acc cnt : Z) :
  all_digits s = true →
  read_digits (s +:+ r) acc cnt = read_digits r (digits_value s acc) (cnt + slen s).
Proof.
  revert acc cnt. induction s as [|c s IH]; intros acc cnt Hs.
  - rewrite app_nil_l_string. cbn. f_equal. unfold slen. cbn. lia.
  - cbn in Hs. apply andb_prop in Hs as [Hc Hs]. unfold is_digit in Hc.
    rewrite app_cons. cbn [read_digits digits_value].
    destruct (digit_of c) as [d|]; [| done].
    rewrite IH by done. f_equal. rewrite slen_cons. lia.
Qed.

Lemma read_digits_stop (c : ascii) (r : string) (acc cnt : Z) :
  is_digit c = false → read_digits (String c r) acc cnt = (acc, cnt, String c r).
Proof. unfold is_digit. cbn. by destruct (digit_of c). Qed.

Lemma read_digits_all (s : string) (acc cnt : Z) :
  all_digits s = true → read_digits s acc cnt = (digits_value s acc, cnt + slen s, "").
Proof.
  intros Hs. rewrite <- (app_nil_r_string s) at 1. by rewrite read_digits_app.
Qed.

Lemma digits_value_app (s r : string) (acc : Z) :
  digits_value (s +:+ r) acc = digits_value r (digits_value s acc).
Proof. revert acc. induction s as [|c s IH]; intros acc; [done |]. rewrite app_cons. cbn. apply IH. Qed.

Lemma all_digits_app (s r : string) :
  all_digits (s +:+ r) = all_digits s && all_digits r.
Proof.
  induction s as [|c s IH]; [done |]. rewrite app_cons. cbn. rewrite IH.
  by rewrite andb_assoc.
Qed.

Lemma plain_app (s r : string) : plain (s +:+ r) = plain s && plain r.
Proof.
  induction s as [|c s IH]; [done |]. rewrite app_cons. cbn. rewrite IH.
  by rewrite andb_assoc.
Qed.

Lemma is_digit_not_space (c : ascii) : is_digit c = true → is_space c = false.
Proof.
  unfold is_digit, digit_of, is_space.
  destruct c as [[] [] [] [] [] [] [] []]; cbn; done.
Qed.

Lemma all_digits_plain (s : string) : all_digits s = true → plain s = true.
Proof.
  induction s as [|c s IH]; [done |]. cbn. intros [Hc Hs]%andb_prop.
  by rewrite (is_digit_not_space c Hc), IH.
Qed.

Lemma all_digits_zeros (n : nat) : all_digits (zeros n) = true.
Proof. induction n as [|n IH]; [done |]. cbn [zeros all_digits]. by rewrite IH. Qed.

Lemma digits_value_zeros (n : nat) (acc : Z) :
  digits_value (zeros n) acc = acc * 10 ^ Z.of_nat n.
Proof.
  revert acc. induction n as [|n IH]; intros acc; [cbn; lia |].
  cbn [zeros digits_value]. rewrite IH. change (digit_of "0") with (Some 0).
  rewrite Nat2Z.inj_succ, Z.pow_succ_r by lia. lia.
Qed.

Lemma slen_zeros (n : nat) : slen (zeros n) = Z.of_nat n.
Proof. induction n as [|n IH]; [done |]. cbn [zeros]. rewrite slen_cons, IH. lia. Qed.

Lemma strip_trailing_zeros_spec (s : string) :
  ∃ j : nat, s = strip_trailing_zeros s +:+ zeros j.
Proof.
  induction s as [|c s [j IH]]; [by exists 0%nat |].
  cbn [strip_trailing_zeros].
  destruct (strip_trailing_zeros s) as [|c' p] eqn:E.
  - rewrite app_nil_l_string in IH. destruct (Ascii.eqb_spec c "0") as [-> | Hc].
    + exists (S j). by rewrite IH.
    + exists j. by rewrite IH.
  - exists j. by rewrite app_cons, <- IH.
Qed.

Lemma skip_spaces_plain (s : string) : plain s = true → skip_spaces s = s.
Proof. destruct s as [|c s]; [done |]. cbn. intros [Hc _]%andb_prop. by destruct (is_space c). Qed.

Lemma drop_final_spaces_plain (s : string) : plain s = true → drop_final_spaces s = s.
Proof.
  induction s as [|c s IH]; [done |]. cbn. intros [Hc Hs]%andb_prop.
  rewrite IH by done. destruct s; [| done]. by destruct (is_space c).
Qed.

Lemma trimmed_plain (s : string) : plain s = true → trimmed s = s.
Proof. intros Hs. unfold trimmed. by rewrite skip_spaces_plain, drop_final_spaces_plain. Qed.

Lemma digits_value_acc (s : string) (acc : Z) :
  digits_value s acc = acc * 10 ^ slen s + digits_value s 0.
Proof.
  revert acc. induction s as [|c s IH]; intros acc.
  - cbn. unfold slen. cbn. lia.
  - cbn [digits_value]. rewrite IH, (IH (10 * 0 + _)), slen_cons.
    replace (1 + slen s) with (Z.succ (slen s)) by lia.
    rewrite Z.pow_succ_r by apply slen_nonneg. lia.
Qed.

Lemma pretty_N_char_digit (n : N) :
  (n < 10)%N → digit_of (pretty_N_char n) = Some (Z.of_N n).
Proof.
  intros Hn.
  assert (n = 0 ∨ n = 1 ∨ n = 2 ∨ n = 3 ∨ n = 4 ∨ n = 5 ∨ n = 6 ∨ n = 7 ∨ n = 8 ∨ n = 9)%N
    as Hcases by lia.
  repeat (destruct Hcases as [-> | Hcases]; [reflexivity |]). by subst.
Qed.

Lemma pretty_N_go_spec (n : N) (s : string) :
  ∃ p : string,
    pretty_N_go n s = p +:+ s ∧ all_digits p = true
    ∧ digits_value p 0 = Z.of_N n ∧ ((0 < n)%N → p ≠ "").
Proof.
  revert s. induction (N.lt_wf_0 n) as [n _ IH]; intros s.
  destruct (N.eq_0_gt_0_cases n) as [-> | Hn].
  - exists "". rewrite pretty_N_go_0. repeat split; [done.. | lia].
  - rewrite pretty_N_go_step by done.
    destruct (IH (n `div` 10)%N (N.div_lt n 10 Hn eq_refl)
                (String (pretty_N_char (n `mod` 10)) s)) as (p & -> & Hp & Hv & _).
    exists (p +:+ String (pretty_N_char (n `mod` 10)) "").
    assert (Hc : digit_of (pretty_N_char (n `mod` 10)) = Some (Z.of_N (n `mod` 10)))
      by (apply pretty_N_char_digit, N.mod_lt; lia).
    repeat split.
    + by rewrite string_app_assoc.
    + rewrite all_digits_app, Hp. cbn. unfold is_digit. by rewrite Hc.
    + rewrite digits_value_app, Hv. cbn. rewrite Hc.
      pose proof (N.div_mod n 10 ltac:(lia)). lia.
    + intros _. by destruct p.
Qed.

Lemma pretty_N_digits (n : N) :
  all_digits (pretty n) = true ∧ digits_value (pretty n) 0 = Z.of_N n ∧ pretty n ≠ "".
Proof.
  unfold pretty, pretty_N. destruct (decide (n = 0)%N) as [-> | Hn]; [done |].
  destruct (pretty_N_go_spec n "") as (p & -> & Hp & Hv & Hne).
  rewrite app_nil_r_string. repeat split; [done.. |]. apply Hne. lia.
Qed.

Ltac div_lia := zify; Z.to_euclidean_division_equations; lia.

Lemma pretty_six (D : Z) :
  10 ^ 5 ≤ D < 10 ^ 6 →
  ∃ c1 c2 c3 c4 c5 c6 : ascii,
    pretty (Z.to_N D) = String c1 (String c2 (String c3 (String c4 (String c5 (String c6 ""))))).
Proof.
  intros HD. change (10 ^ 5) with 100000 in HD. change (10 ^ 6) with 1000000 in HD.
  unfold pretty, pretty_N.
  destruct (decide (Z.to_N D = 0)%N) as [? | _]; [lia |].
  do 6 (rewrite pretty_N_go_step by div_lia).
  replace (N.div (N.div (N.div (N.div (N.div (N.div (Z.to_N D) 10) 10) 10) 10) 10) 10)
    with 0%N by div_lia.
  rewrite pretty_N_go_0. by eexists _, _, _, _, _, _.
Qed.

Lemma slen_pos (s : string) : s ≠ "" → 0 < slen s.
Proof. destruct s; [done |]. intros _. rewrite slen_cons. pose proof (slen_nonneg s). lia. Qed.

Lemma read_tail (t : string) (E fp nf : Z) :
  tail_reads t E →
  match t with
  | EmptyString => Some (fp, - nf)
  | String c r =>
      if Ascii.eqb c "e" || Ascii.eqb c "E" then
        let '(neg, r3) := read_sign r in
        match read_digits r3 0 0 with
        | (ex, ne, EmptyString) =>
            if ne =? 0 then None else Some (fp, (if neg then - ex else ex) - nf)
        | _ => None
        end
      else None
  end = Some (fp, E - nf).
Proof.
  intros [[-> ->] | (neg & ds & -> & Hds & Hne & ->)]; [f_equal; f_equal; lia |].
  cbn [Ascii.eqb Bool.eqb orb andb].
  assert (Hs : read_sign (String (if neg then "-" else "+")%char ds) = (neg, ds))
    by (by destruct neg).
  rewrite Hs, read_digits_all by done.
  pose proof (slen_pos ds Hne).
  destruct (Z.eqb_spec (0 + slen ds) 0); [lia | done].
Qed.

Lemma tail_first_not_digit (t : string) (E : Z) (acc cnt : Z) :
  tail_reads t E → read_digits t acc cnt = (acc, cnt, t).
Proof. intros [[-> _] | (neg & ds & -> & _)]; done. Qed.

Lemma read_decimal_with_point (a b t : string) (E : Z) :
  all_digits a = true → all_digits b = true → a ≠ "" → tail_reads t E →
  read_decimal (with_point a b +:+ t)
    = Some (digits_value b (digits_value a 0), E - slen b).
Proof.
  intros Ha Hb Hne Ht. pose proof (slen_pos a Hne) as Hla.
  pose proof (slen_nonneg b) as Hlb.
  unfold read_decimal. destruct b as [|c b].
  - cbn [with_point]. rewrite read_digits_app, (tail_first_not_digit t E) by done.
    assert (Ht' : match t with String "." r => read_digits r (digits_value a 0) 0
                  | _ => (digits_value a 0, 0, t) end = (digits_value a 0, 0, t)).
    { by destruct Ht as [[-> _] | (neg & ds & -> & _)]. }
    rewrite Ht'. destruct (Z.eqb_spec (0 + slen a + 0) 0); [lia |].
    rewrite (read_tail t E) by done. reflexivity.
  - cbn [with_point]. rewrite !string_app_assoc, read_digits_app by done.
    rewrite app_cons, app_nil_l_string.
    rewrite read_digits_stop by done.
    rewrite read_digits_app, (tail_first_not_digit t E) by done.
    destruct (Z.eqb_spec (0 + slen a + (0 + slen (String c b))) 0); [lia |].
    rewrite (read_tail t E) by done. reflexivity.
Qed.

Lemma exponent_text_tail (X : Z) : tail_reads (exponent_text X) X.
Proof.
  right. exists (X <? 0), ((if Z.abs X <? 10 then "0" else "") +:+ pretty (Z.abs_N X)).
  destruct (pretty_N_digits (Z.abs_N X)) as (Hp & Hv & Hne).
  repeat split.
  - unfold exponent_text. by destruct (X <? 0).
  - rewrite all_digits_app, Hp. by destruct (Z.abs X <? 10).
  - destruct (Z.abs X <? 10), (pretty (Z.abs_N X)); done.
  - rewrite digits_value_app.
    assert (Hpad : digits_value (if Z.abs X <? 10 then "0" else "") 0 = 0)
      by (by destruct (Z.abs X <? 10)).
    rewrite Hpad, Hv. destruct (Z.ltb_spec X 0); lia.
Qed.

Lemma all_digits_app_l (s r : string) : all_digits (s +:+ r) = true → all_digits s = true.
Proof. rewrite all_digits_app. by intros [? _]%andb_prop. Qed.

Lemma with_point_reads (a rest t : string) (E : Z) :
  all_digits a = true → a ≠ "" → all_digits rest = true → tail_reads t E →
  ∃ j : nat,
    read_decimal (with_point a (strip_trailing_zeros rest) +:+ t)
      = Some (digits_value (strip_trailing_zeros rest) (digits_value a 0),
              E - slen rest + Z.of_nat j)
    ∧ digits_value rest (digits_value a 0)
      = digits_value (strip_trailing_zeros rest) (digits_value a 0) * 10 ^ Z.of_nat j.
Proof.
  intros Ha Hne Hrest Ht. destruct (strip_trailing_zeros_spec rest) as [j Hj].
  exists j. set (p := strip_trailing_zeros rest) in *.
  assert (Hp : all_digits p = true) by (apply (all_digits_app_l p (zeros j)); by rewrite <- Hj).
  rewrite (read_decimal_with_point a p t E) by done. split.
  - do 2 f_equal. rewrite Hj at 1. rewrite slen_app, slen_zeros. lia.
  - rewrite Hj at 1. by rewrite digits_value_app, digits_value_zeros.
Qed.

Lemma plain_with_point (a b : string) :
  all_digits a = true → all_digits b = true → plain (with_point a b) = true.
Proof.
  intros Ha%all_digits_plain Hb%all_digits_plain. destruct b as [|c b]; [done |].
  cbn [with_point]. rewrite !plain_app, Ha, Hb. done.
Qed.

Lemma plain_tail (t : string) (E : Z) : tail_reads t E → plain t = true.
Proof.
  intros [[-> _] | (neg & ds & -> & Hds%all_digits_plain & _)]; [done |].
  cbn. rewrite Hds. by destruct neg.
Qed.

Lemma with_point_first (c : ascii) (a b : string) :
  ∃ r, with_point (String c a) b = String c r.
Proof. destruct b; cbn [with_point]; rewrite ?app_cons; by eexists. Qed.

Lemma render_g_reads (D X : Z) :
  10 ^ 5 ≤ D < 10 ^ 6 →
  ∃ (N : Z) (j : nat) (c : ascii) (r : string),
    D = N * 10 ^ Z.of_nat j
    ∧ read_decimal (render_g D X) = Some (N, X - 5 + Z.of_nat j)
    ∧ render_g D X = String c r ∧ is_digit c = true
    ∧ plain (render_g D X) = true.
Proof.
  intros HD. destruct (pretty_six D HD) as (c1 & c2 & c3 & c4 & c5 & c6 & Hds).
  destruct (pretty_N_digits (Z.to_N D)) as (Hall & Hval & _).
  rewrite Z2N.id in Hval by (change (10 ^ 5) with 100000 in HD; lia).
  rewrite Hds in Hall, Hval. unfold render_g. rewrite Hds. clear Hds.
  pose proof Hall as Hall'. cbn [all_digits] in Hall'.
  apply andb_prop in Hall' as [H1 Hall']. apply andb_prop in Hall' as [H2 Hall'].
  apply andb_prop in Hall' as [H3 Hall']. apply andb_prop in Hall' as [H4 Hall'].
  apply andb_prop in Hall' as [H5 Hall']. apply andb_prop in Hall' as [H6 _].
  assert (Hd : ∀ a rest, all_digits a = true → a ≠ "" → all_digits rest = true →
            digits_value rest (digits_value a 0) = D → slen rest = 5 - X →
            ∃ (N : Z) (j : nat),
              D = N * 10 ^ Z.of_nat j
              ∧ read_decimal (with_point a (strip_trailing_zeros rest))
                = Some (N, X - 5 + Z.of_nat j)
              ∧ plain (with_point a (strip_trailing_zeros rest)) = true).
  { intros a rest Ha Hne Hrest Hv Hl.
    destruct (with_point_reads a rest "" 0 Ha Hne Hrest) as (j & Hr & Hj); [by left |].
    rewrite app_nil_r_string in Hr. eexists _, j. split; [by rewrite <- Hj |].
    split; [rewrite Hr; do 2 f_equal; lia |].
    destruct (strip_trailing_zeros_spec rest) as [j' Hj'].
    apply plain_with_point; [done |].
    apply (all_digits_app_l _ (zeros j')). by rewrite <- Hj'. }
  destruct ((X <? -4) || (6 <=? X)) eqn:Hsci.
  - (* scientific *)
    cbn [substring].
    destruct (with_point_reads (String c1 "")
                (String c2 (String c3 (String c4 (String c5 (String c6 "")))))
                (exponent_text X) X) as (j & Hr & Hj);
      [by cbn; rewrite H1 | done | by cbn; rewrite H2, H3, H4, H5, H6
      | apply exponent_text_tail |].
    destruct (with_point_first c1 ""
                (strip_trailing_zeros
                   (String c2 (String c3 (String c4 (String c5 (String c6 ""))))))) as [r Hfirst].
    eexists _, j, c1, _. split; [by rewrite <- Hj |]. split.
    { rewrite Hr. do 2 f_equal; unfold slen; cbn; lia. }
    split; [by rewrite Hfirst, app_cons |]. split; [done |].
    rewrite plain_app, (plain_tail _ _ (exponent_text_tail X)), andb_true_r.
    destruct (strip_trailing_zeros_spec
                (String c2 (String c3 (String c4 (String c5 (String c6 "")))))) as [j' Hj'].
    apply plain_with_point; [by cbn; rewrite H1 |].
    apply (all_digits_app_l _ (zeros j')). rewrite <- Hj'. by cbn; rewrite H2, H3, H4, H5, H6.
  - apply orb_false_elim in Hsci as [Hlo%Z.ltb_ge Hhi%Z.leb_gt].
    destruct (Z.ltb_spec X 0) as [Hneg | Hpos].
    + (* 0.000ddd *)
      set (ds := String c1 (String c2 (String c3 (String c4 (String c5 (String c6 "")))))) in *.
      destruct (strip_trailing_zeros_spec ds) as [j Hj].
      set (p := strip_trailing_zeros ds) in *.
      assert (Hp : all_digits p = true)
        by (apply (all_digits_app_l p (zeros j)); by rewrite <- Hj).
      assert (Hvp : D = digits_value p 0 * 10 ^ Z.of_nat j).
      { rewrite <- Hval, Hj at 1. by rewrite digits_value_app, digits_value_zeros. }
      assert (Hlp : slen p + Z.of_nat j = 6).
      { rewrite <- (slen_zeros j), <- slen_app, <- Hj. done. }
      assert (Hpne : p ≠ "").
      { intros Hp0. rewrite Hp0 in Hvp. cbn in Hvp. change (10 ^ 5) with 100000 in HD. lia. }
      set (z := Z.to_nat (- X - 1)).
      pose proof (read_decimal_with_point "0" (zeros z +:+ p) "" 0) as Hr.
      rewrite app_nil_r_string in Hr.
      assert (Hb : zeros z +:+ p ≠ "") by (destruct (zeros z), p; done).
      assert (Htext : "0." +:+ zeros z +:+ p = with_point "0" (zeros z +:+ p)).
      { unfold with_point. destruct (zeros z +:+ p) eqn:E; [done |]. reflexivity. }
      rewrite Htext.
      exists (digits_value p 0), j, "0"%char, (String "." (zeros z +:+ p)).
      split; [done |]. split.
      { rewrite Hr; [| done | by rewrite all_digits_app, all_digits_zeros | done | by left].
        rewrite digits_value_app, digits_value_zeros, slen_app, slen_zeros.
        cbn [digits_value]. do 2 f_equal; unfold z; lia. }
      split; [by rewrite <- Htext |]. split; [done |].
      apply plain_with_point; [done | by rewrite all_digits_app, all_digits_zeros].
    + (* ddd.ddd *)
      assert (X = 0 ∨ X = 1 ∨ X = 2 ∨ X = 3 ∨ X = 4 ∨ X = 5) as Hcases by lia.
      destruct Hcases as [-> | [-> | [-> | [-> | [-> | ->]]]]];
        (match goal with
         | |- context [Z.to_nat ?e] =>
             let v := eval vm_compute in (Z.to_nat e) in change (Z.to_nat e) with v
         end);
        cbn [substring Nat.sub];
        (match goal with
         | |- context [with_point ?a (strip_trailing_zeros ?rest)] =>
             destruct (Hd a rest) as (N & j & HN & Hr & Hpl);
               [ by cbn; rewrite ?H1, ?H2, ?H3, ?H4, ?H5, ?H6 | done
               | by cbn; rewrite ?H1, ?H2, ?H3, ?H4, ?H5, ?H6
               | exact Hval | unfold slen; cbn; lia |];
             destruct (with_point_first c1 (match a with String _ a' => a' | _ => "" end)
                         (strip_trailing_zeros rest)) as [r Hfirst];
             exists N, j, c1, r; repeat split; done
         end).
Qed.

Lemma digit_eqb (c c' : ascii) :
  is_digit c = true → is_digit c' = false → Ascii.eqb c c' = false.
Proof. intros Hc Hc'. destruct (Ascii.eqb_spec c c') as [-> | ?]; [congruence | done]. Qed.

Lemma read_sign_digit (c : ascii) (r : string) :
  is_digit c = true → read_sign (String c r) = (false, String c r).
Proof.
  unfold is_digit, digit_of.
  destruct c as [[] [] [] [] [] [] [] []]; cbn; done.
Qed.

Lemma toDouble_numeral (neg : bool) (c : ascii) (r : string) (N E : Z) :
  is_digit c = true → plain (String c r) = true →
  read_decimal (String c r) = Some (N, E) →
  read_sign ((if neg then "-" else "") +:+ String c r) = (neg, String c r)
  ∧ toDouble ((if neg then "-" else "") +:+ String c r) = rounded_decimal neg N E.
Proof.
  intros Hc Hplain Hread.
  assert (Hsign : read_sign ((if neg then "-" else "") +:+ String c r) = (neg, String c r)).
  { destruct neg; [done |]. rewrite app_nil_l_string. by apply read_sign_digit. }
  split; [done |]. unfold toDouble.
  rewrite trimmed_plain by (rewrite plain_app, Hplain; by destruct neg).
  assert (Hn : Ascii.eqb c "n" = false) by (by apply digit_eqb).
  assert (Hi : Ascii.eqb c "i" = false) by (by apply digit_eqb).
  assert (Hp : Ascii.eqb c "+" = false) by (by apply digit_eqb).
  assert (Hm : Ascii.eqb c "-" = false) by (by apply digit_eqb).
  assert (Hspecial :
    String.eqb ((if neg then "-" else "") +:+ String c r) "nan" = false
    ∧ String.eqb ((if neg then "-" else "") +:+ String c r) "inf" = false
    ∧ String.eqb ((if neg then "-" else "") +:+ String c r) "+inf" = false
    ∧ String.eqb ((if neg then "-" else "") +:+ String c r) "-inf" = false).
  { destruct neg; rewrite ?app_cons, ?app_nil_l_string; cbn [String.eqb];
      rewrite ?Hn, ?Hi, ?Hp, ?Hm; done. }
  destruct Hspecial as (-> & -> & -> & ->). cbn [orb].
  by rewrite Hsign, Hread.
Qed.

Lemma text_reads_back (c : float) :
  match Prim2SF c with
  | S754_finite neg m e =>
      ∃ (D k N : Z) (j : nat) (body : string),
        10 ^ 5 ≤ D < 10 ^ 6 ∧ 0 < k
        ∧ 2 * Z.abs (scaled m e - D * 10 ^ k) ≤ 10 ^ k
        ∧ D = N * 10 ^ Z.of_nat j
        ∧ read_sign (number_g6 c) = (neg, body)
        ∧ read_decimal body = Some (N, k - 1074 + Z.of_nat j)
        ∧ toDouble (number_g6 c) = rounded_decimal neg N (k - 1074 + Z.of_nat j)
  | _ => toDouble (number_g6 c) = Some c
  end.
Proof.
  unfold number_g6.
  destruct (Prim2SF c) as [neg | neg | | neg m e] eqn:Hc.
  - rewrite <- (SF2Prim_Prim2SF c), Hc. by destruct neg.
  - rewrite <- (SF2Prim_Prim2SF c), Hc. by destruct neg.
  - by rewrite <- (SF2Prim_Prim2SF c), Hc.
  - destruct (round_sig6_spec (scaled m e)) as (D & k & -> & HD & Hk & Herr).
    { eapply scaled_large, finite_double_exponent, Hc. }
    destruct (render_g_reads D (k + 5 - 1074) HD) as (N & j & ch & r & HN & Hread & Hr & Hch & Hpl).
    rewrite Hr in *.
    destruct (toDouble_numeral neg ch r N (k + 5 - 1074 - 5 + Z.of_nat j) Hch Hpl Hread)
      as [Hsign Hback].
    exists D, k, N, j, (String ch r).
    replace (k - 1074 + Z.of_nat j) with (k + 5 - 1074 - 5 + Z.of_nat j) by lia.
    done.
Qed.

(** ** Rounding to a double

    [binary_round_aux] returns the canonical mantissa and exponent within
    half a quantum of the exact value it is given. *)

Lemma fexp_eq (e : Z) : fexp prec emax e = Z.max (e - 53) (-1074).
Proof. reflexivity. Qed.

Lemma digits2_pos_spec (p : positive) :
  2 ^ (Z.pos (digits2_pos p) - 1) ≤ Z.pos p < 2 ^ Z.pos (digits2_pos p).
Proof.
  induction p as [p IH | p IH |]; cbn [digits2_pos].
  - rewrite Pos2Z.inj_succ, Pos2Z.inj_xI.
    replace (Z.succ (Z.pos (digits2_pos p)) - 1) with (Z.succ (Z.pos (digits2_pos p) - 1)) by lia.
    rewrite !Z.pow_succ_r by lia. lia.
  - rewrite Pos2Z.inj_succ. change (Z.pos p~0) with (2 * Z.pos p).
    replace (Z.succ (Z.pos (digits2_pos p)) - 1) with (Z.succ (Z.pos (digits2_pos p) - 1)) by lia.
    rewrite !Z.pow_succ_r by lia. lia.
  - cbn. lia.
Qed.

Lemma Zdigits2_spec (m : Z) :
  0 < m → 0 < Zdigits2 m ∧ 2 ^ (Zdigits2 m - 1) ≤ m < 2 ^ Zdigits2 m.
Proof.
  destruct m as [|p|p]; try lia. intros _. cbn [Zdigits2].
  split; [lia | apply digits2_pos_spec].
Qed.

Lemma Zdigits2_unique (m k : Z) : 2 ^ (k - 1) ≤ m < 2 ^ k → 0 < m → Zdigits2 m = k.
Proof.
  intros [Hlo Hhi] Hm. destruct (Zdigits2_spec m Hm) as (Hd & Hdlo & Hdhi).
  assert (Hk : 0 < k).
  { destruct (Z.lt_ge_cases 0 k) as [? | Hk]; [done |].
    destruct (Z.eq_dec k 0) as [-> | ?]; [cbn in Hhi; lia |].
    rewrite Z.pow_neg_r in Hhi by lia. lia. }
  destruct (Z.lt_trichotomy (Zdigits2 m) k) as [Hlt | [Heq | Hgt]]; [| done |].
  - pose proof (Z.pow_le_mono_r 2 (Zdigits2 m) (k - 1) ltac:(lia) ltac:(lia)). lia.
  - pose proof (Z.pow_le_mono_r 2 k (Zdigits2 m - 1) ltac:(lia) ltac:(lia)). lia.
Qed.

Lemma Zdigits2_shift (m n : Z) :
  0 ≤ n → 0 ≤ m → Zdigits2 (m / 2 ^ n) = Z.max (Zdigits2 m - n) 0.
Proof.
  intros Hn Hm. assert (Hp : 0 < 2 ^ n) by (apply Z.pow_pos_nonneg; lia).
  destruct (Z.eq_dec m 0) as [-> | Hne].
  { rewrite Z.div_0_l by lia. cbn. lia. }
  destruct (Zdigits2_spec m ltac:(lia)) as (Hd & Hlo & Hhi).
  set (d := Zdigits2 m) in *.
  destruct (Z.le_gt_cases d n) as [Hle | Hgt].
  - pose proof (Z.pow_le_mono_r 2 d n ltac:(lia) Hle).
    rewrite Z.div_small by lia. cbn. lia.
  - rewrite Z.max_l by lia.
    assert (Hq : 2 ^ (d - n - 1) ≤ m / 2 ^ n < 2 ^ (d - n)).
    { split.
      - apply Z.div_le_lower_bound; [done |].
        rewrite <- Z.pow_add_r by lia. by replace (n + (d - n - 1)) with (d - 1) by lia.
      - apply Z.div_lt_upper_bound; [done |].
        rewrite <- Z.pow_add_r by lia. by replace (n + (d - n)) with d by lia. }
    apply Zdigits2_unique; [done |].
    pose proof (Z.pow_pos_nonneg 2 (d - n - 1) ltac:(lia) ltac:(lia)). lia.
Qed.

Lemma Zdigits2_pow2 (k : Z) : 0 ≤ k → Zdigits2 (2 ^ k) = k + 1.
Proof.
  intros Hk. apply Zdigits2_unique.
  - replace (k + 1 - 1) with k by lia. rewrite Z.pow_add_r by lia. change (2 ^ 1) with 2.
    pose proof (Z.pow_pos_nonneg 2 k ltac:(lia) Hk). lia.
  - apply Z.pow_pos_nonneg; lia.
Qed.

Lemma shr_record_of_loc_represents (m A B : Z) :
  0 < B → 0 ≤ m → m * B ≤ A < (m + 1) * B →
  represents (shr_record_of_loc m (place A B m)) A B.
Proof.
  intros HB Hm HA. unfold represents.
  assert (Hm' : ∀ l, shr_m (shr_record_of_loc m l) = m) by (by intros [|[]]).
  assert (Hl : ∀ l, loc_of_shr_record (shr_record_of_loc m l) = l) by (by intros [|[]]).
  rewrite Hm', Hl. done.
Qed.

Lemma shr_1_represents (mrs : shr_record) (A B : Z) :
  represents mrs A B → represents (shr_1 mrs) A (2 * B).
Proof.
  destruct mrs as [m r s]. unfold represents, place. cbn [shr_m].
  intros (HB & Hm & HA & Hloc).
  destruct m as [|[p|p|]|]; try lia; cbn [shr_1 shr_m loc_of_shr_record];
    try change (Z.pos p~0) with (2 * Z.pos p) in *;
    try change (Z.pos p~1) with (2 * Z.pos p + 1) in *;
    (split; [lia |]); (split; [lia |]); (split; [lia |]);
    destruct r, s; cbn [orb loc_of_shr_record] in *;
    repeat match goal with
    | H : context [?a =? ?b] |- _ => destruct (Z.eqb_spec a b)
    | H : context [?a ?= ?b] |- _ => destruct (Z.compare_spec a b)
    | |- context [?a =? ?b] => destruct (Z.eqb_spec a b)
    | |- context [?a ?= ?b] => destruct (Z.compare_spec a b)
    end; try discriminate; try reflexivity; try lia.
Qed.

Lemma iter_pos_represents (p : positive) (mrs : shr_record) (A B : Z) :
  represents mrs A B → represents (SpecFloat.iter_pos shr_1 p mrs) A (2 ^ Z.pos p * B).
Proof.
  revert mrs B. induction p as [p IH | p IH |]; intros mrs B Hrep; cbn [SpecFloat.iter_pos].
  - apply shr_1_represents in Hrep. apply IH, IH in Hrep.
    assert (E : 2 ^ Z.pos p~1 = 2 ^ Z.pos p * 2 ^ Z.pos p * 2).
    { rewrite <- Z.pow_add_r, Z.mul_comm, <- Z.pow_succ_r by lia. f_equal. lia. }
    rewrite E. by replace (2 ^ Z.pos p * 2 ^ Z.pos p * 2 * B)
      with (2 ^ Z.pos p * (2 ^ Z.pos p * (2 * B))) by lia.
  - apply IH, IH in Hrep.
    assert (E : 2 ^ Z.pos p~0 = 2 ^ Z.pos p * 2 ^ Z.pos p).
    { rewrite <- Z.pow_add_r by lia. f_equal. lia. }
    rewrite E. by rewrite <- Z.mul_assoc.
  - apply shr_1_represents in Hrep. by change (2 ^ 1) with 2.
Qed.

Lemma shr_represents (mrs : shr_record) (e n A B : Z) :
  0 ≤ n → represents mrs A B →
  ∃ mrs', shr mrs e n = (mrs', e + n) ∧ represents mrs' A (2 ^ n * B).
Proof.
  intros Hn Hrep. destruct n as [|p|p]; [| | lia].
  - exists mrs. cbn [shr]. rewrite Z.add_0_r. split; [done |].
    by replace (2 ^ 0 * B) with B by (cbn; lia).
  - exists (SpecFloat.iter_pos shr_1 p mrs). split; [done |]. by apply iter_pos_represents.
Qed.

Lemma represents_div (mrs : shr_record) (m n A B : Z) :
  0 ≤ n → 0 < B → m * B ≤ A < (m + 1) * B →
  represents mrs A (2 ^ n * B) → shr_m mrs = m / 2 ^ n.
Proof.
  intros Hn HB HA (HB' & Hm' & HA' & _).
  assert (Hp : 0 < 2 ^ n) by (apply Z.pow_pos_nonneg; lia).
  set (q := shr_m mrs) in *.
  apply (Z.div_unique_pos m (2 ^ n) q (m - 2 ^ n * q)); [| lia]. nia.
Qed.

Lemma round_nearest_even_spec (m A B : Z) :
  0 < B → m * B ≤ A < (m + 1) * B →
  m ≤ round_nearest_even m (place A B m) ≤ m + 1
  ∧ 2 * Z.abs (round_nearest_even m (place A B m) * B - A) ≤ B.
Proof.
  intros HB HA. unfold place, round_nearest_even.
  destruct (Z.eqb_spec (A - m * B) 0); [lia |].
  destruct (Z.compare_spec (2 * (A - m * B)) B); [destruct (Z.even m) | |]; lia.
Qed.

Lemma fexp_canonical_step (k e : Z) :
  fexp prec emax (k + e) = e →
  fexp prec emax (k + 1 + e) = e ∨ fexp prec emax (k + 1 + e) = e + 1.
Proof. rewrite !fexp_eq. lia. Qed.

Lemma binary_round_aux_spec (sx : bool) (mx ex A B : Z) :
  0 < B → 0 ≤ mx → mx * B ≤ A < (mx + 1) * B →
  ex ≤ fexp prec emax (Zdigits2 mx + ex) →
  ∃ m e : Z,
    0 ≤ m ∧ ex ≤ e ∧ fexp prec emax (Zdigits2 m + e) = e
    ∧ 2 * Z.abs (m * 2 ^ (e - ex) * B - A) ≤ 2 ^ (e - ex) * B
    ∧ binary_round_aux prec emax sx mx ex (place A B mx) = round_result sx m e.
Proof.
  intros HB Hmx HA Hex. unfold binary_round_aux, shr_fexp.
  set (n := fexp prec emax (Zdigits2 mx + ex) - ex).
  assert (Hn : 0 ≤ n) by (unfold n; lia).
  destruct (shr_represents (shr_record_of_loc mx (place A B mx)) ex n A B Hn)
    as (mrs' & -> & Hrep); [by apply shr_record_of_loc_represents |].
  pose proof (represents_div mrs' mx n A B Hn HB HA Hrep) as Hms.
  destruct Hrep as (HB' & Hms0 & HA' & ->).
  set (ms := shr_m mrs') in *. set (B' := 2 ^ n * B) in *.
  destruct (round_nearest_even_spec ms A B' HB' HA') as [Hm1 Herr].
  set (m1 := round_nearest_even ms (place A B' ms)) in *.
  set (e' := ex + n).
  assert (Hcanon : fexp prec emax (Zdigits2 ms + e') = e').
  { rewrite Hms, Zdigits2_shift by done. unfold e', n. rewrite !fexp_eq. lia. }
  assert (Hshift : 2 * Z.abs (m1 * 2 ^ (e' - ex) * B - A) ≤ 2 ^ (e' - ex) * B).
  { replace (e' - ex) with n by (unfold e'; lia). fold B'.
    by replace (m1 * 2 ^ n * B) with (m1 * B') by (unfold B'; lia). }
  set (k := Zdigits2 ms) in *.
  assert (Hk : 0 ≤ k ∧ ms < 2 ^ k).
  { destruct (Z.eq_dec ms 0) as [E | ?]; [unfold k; rewrite E; cbn; lia |].
    destruct (Zdigits2_spec ms ltac:(lia)). unfold k. lia. }
  destruct (Z.lt_ge_cases m1 (2 ^ k)) as [Hsmall | Hbig].
  - (* the rounded mantissa has as many digits *)
    assert (Hd1 : Zdigits2 m1 = k).
    { destruct (Z.eq_dec ms 0) as [E | Hne].
      - assert (k = 0) by (unfold k; by rewrite E). subst k.
        replace m1 with 0; [done |]. rewrite H in Hsmall. cbn in Hsmall. lia.
      - destruct (Zdigits2_spec ms ltac:(lia)) as (? & ? & ?). fold k in H, H0, H1.
        apply Zdigits2_unique; lia. }
    exists m1, e'. rewrite Hd1, Hcanon, Z.sub_diag.
    split; [lia |]. split; [unfold e'; lia |]. split; [done |]. split; [done |].
    assert (Hrec : ∀ m, shr_record_of_loc m loc_Exact = Build_shr_record m false false) by done.
    rewrite Hrec. cbn [shr shr_m]. done.
  - (* the rounded mantissa is the next power of two *)
    assert (Em1 : m1 = 2 ^ k) by lia.
    assert (Hd1 : Zdigits2 m1 = k + 1) by (rewrite Em1; apply Zdigits2_pow2; lia).
    rewrite Hd1.
    destruct (fexp_canonical_step k e' Hcanon) as [E | E]; rewrite E.
    + exists m1, e'. rewrite Hd1, E, Z.sub_diag.
      split; [lia |]. split; [unfold e'; lia |]. split; [done |]. split; [done |].
      assert (Hrec : ∀ m, shr_record_of_loc m loc_Exact = Build_shr_record m false false) by done.
      rewrite Hrec. cbn [shr shr_m]. done.
    + assert (Hk1 : 0 < k).
      { destruct (Z.eq_dec k 0) as [E0 | ?]; [| lia].
        rewrite E0 in Hcanon, E. rewrite fexp_eq in Hcanon, E. lia. }
      replace (e' + 1 - e') with 1 by lia.
      assert (Hrep1 : represents (shr_record_of_loc m1 (place m1 1 m1)) m1 1)
        by (apply shr_record_of_loc_represents; lia).
      assert (Hplace : place m1 1 m1 = loc_Exact).
      { unfold place. by replace (m1 - m1 * 1) with 0 by lia. }
      rewrite Hplace in Hrep1.
      destruct (shr_represents _ e' 1 m1 1 ltac:(lia) Hrep1) as (mrs'' & -> & Hrep2).
      destruct Hrep2 as (_ & Hm2 & HA2 & _). change (2 ^ 1 * 1) with 2 in HA2.
      assert (Epow : 2 ^ k = 2 * 2 ^ (k - 1)).
      { rewrite <- Z.pow_succ_r by lia. f_equal. lia. }
      assert (Em2 : shr_m mrs'' = 2 ^ (k - 1)) by lia.
      exists (2 ^ (k - 1)), (e' + 1). rewrite Em2.
      split; [apply Z.pow_nonneg; lia |]. split; [unfold e'; lia |].
      split; [rewrite Zdigits2_pow2 by lia; by replace (k - 1 + 1 + (e' + 1)) with (k + 1 + e') by lia |].
      split; [| done].
      assert (Epow' : 2 ^ (e' + 1 - ex) = 2 * 2 ^ (e' - ex)).
      { rewrite <- Z.pow_succ_r by (unfold e'; lia). f_equal. lia. }
      rewrite Epow'.
      replace (2 ^ (k - 1) * (2 * 2 ^ (e' - ex)) * B) with (m1 * 2 ^ (e' - ex) * B)
        by (rewrite Em1, Epow; lia).
      assert (0 ≤ 2 ^ (e' - ex) * B).
      { apply Z.mul_nonneg_nonneg; [apply Z.pow_nonneg |]; lia. }
      lia.
Qed.

Lemma valid_canonical (s : bool) (m : positive) (e : Z) :
  valid_binary (S754_finite s m e) = true →
  fexp prec emax (Zdigits2 (Z.pos m) + e) = e ∧ e ≤ 971.
Proof.
  cbn [SpecFloat.valid_binary]. unfold bounded, canonical_mantissa. intros Hv.
  apply andb_prop in Hv as [Hc He]. apply Z.eqb_eq in Hc. apply Z.leb_le in He.
  split; [exact Hc | exact He].
Qed.


Lemma round_result_finite (sx : bool) (m e : Z) :
  0 ≤ m → fexp prec emax (Zdigits2 m + e) = e →
  SFfinite (round_result sx m e) = true →
  SFfixed (round_result sx m e) = cond_Zopp sx (m * 2 ^ (e + 1074))
  ∧ SFquantum (round_result sx m e) = 2 ^ (e + 1074)
  ∧ valid_binary (round_result sx m e) = true.
Proof.
  intros Hm Hc. unfold round_result. destruct m as [|p|p]; [| | lia].
  - intros _. cbn in Hc. rewrite fexp_eq in Hc.
    replace e with (-1074) by lia. by destruct sx.
  - destruct (Z.leb_spec e (emax - prec)) as [He | He]; [| done]. intros _.
    cbn [SFfixed SFquantum SpecFloat.valid_binary]. split; [done |]. split; [done |].
    unfold bounded, canonical_mantissa. apply andb_true_intro.
    split; [by apply Z.eqb_eq | by apply Z.leb_le].
Qed.

Lemma cond_Zopp_sub_abs (s : bool) (a b : Z) :
  Z.abs (cond_Zopp s a - cond_Zopp s b) = Z.abs (a - b).
Proof. destruct s; cbn [cond_Zopp]; lia. Qed.

Lemma scale_bound (X A Y P : Z) :
  0 ≤ P → 2 * Z.abs (X - A) ≤ Y → 2 * Z.abs (X * P - A * P) ≤ Y * P.
Proof.
  intros HP H. rewrite <- Z.mul_sub_distr_r, Z.abs_mul, (Z.abs_eq P) by done. nia.
Qed.

Lemma pos_iter_xO (m d : positive) : Z.pos (Pos.iter xO m d) = Z.pos m * 2 ^ Z.pos d.
Proof.
  induction d as [|d IH] using Pos.peano_ind.
  - cbn. lia.
  - rewrite Pos.iter_succ, Pos2Z.inj_succ, Z.pow_succ_r by lia.
    change (Z.pos (Pos.iter xO m d)~0) with (2 * Z.pos (Pos.iter xO m d)). rewrite IH. lia.
Qed.

Lemma shl_align_spec (m : positive) (e e' : Z) :
  ∃ m' : positive,
    shl_align m e e' = (m', Z.min e e')
    ∧ Z.pos m' = Z.pos m * 2 ^ (e - Z.min e e').
Proof.
  unfold shl_align. destruct (e' - e) as [|d|d] eqn:Hd.
  - exists m. rewrite Z.min_l by lia. rewrite Z.sub_diag. cbn. split; [done | lia].
  - exists m. rewrite Z.min_l by lia. rewrite Z.sub_diag. cbn. split; [done | lia].
  - exists (Pos.iter xO m d). rewrite Z.min_r by lia. split; [done |].
    rewrite pos_iter_xO. f_equal. f_equal. lia.
Qed.

Lemma Zdigits2_pos_mul_pow2 (m : positive) (n : Z) :
  0 ≤ n → Zdigits2 (Z.pos m * 2 ^ n) = Zdigits2 (Z.pos m) + n.
Proof.
  intros Hn. destruct (Zdigits2_spec (Z.pos m) ltac:(lia)) as (Hd & Hlo & Hhi).
  set (d := Zdigits2 (Z.pos m)) in *.
  assert (Hp : 0 < 2 ^ n) by (apply Z.pow_pos_nonneg; lia).
  apply Zdigits2_unique; [| lia].
  replace (d + n - 1) with (d - 1 + n) by lia. rewrite !Z.pow_add_r by lia. nia.
Qed.

(** Rounding a positive integer times a power of two. *)
Lemma binary_round_spec (sx : bool) (mx : positive) (ex : Z) :
  -1074 ≤ ex →
  ∃ m e : Z,
    0 ≤ m ∧ fexp prec emax (Zdigits2 m + e) = e
    ∧ binary_round prec emax sx mx ex = round_result sx m e
    ∧ 2 * Z.abs (m * 2 ^ (e + 1074) - Z.pos mx * 2 ^ (ex + 1074)) ≤ 2 ^ (e + 1074).
Proof.
  intros Hex. unfold binary_round.
  destruct (shl_align_spec mx ex (fexp prec emax (Z.pos (digits2_pos mx) + ex)))
    as (mz & -> & Hmz).
  set (ez := Z.min ex (fexp prec emax (Z.pos (digits2_pos mx) + ex))) in *.
  assert (Hez : -1074 ≤ ez ≤ ex) by (unfold ez; rewrite fexp_eq; lia).
  assert (Hdz : Zdigits2 (Z.pos mz) = Zdigits2 (Z.pos mx) + (ex - ez)).
  { rewrite Hmz. apply Zdigits2_pos_mul_pow2. lia. }
  destruct (binary_round_aux_spec sx (Z.pos mz) ez (Z.pos mz) 1)
    as (m & e & Hm & He & Hc & Herr & Hres); [lia | lia | lia | |].
  { rewrite Hdz.
    replace (Zdigits2 (Z.pos mx) + (ex - ez) + ez) with (Zdigits2 (Z.pos mx) + ex) by lia.
    unfold ez. cbn [Zdigits2]. lia. }
  assert (Hplace : place (Z.pos mz) 1 (Z.pos mz) = loc_Exact).
  { unfold place. by replace (Z.pos mz - Z.pos mz * 1) with 0 by lia. }
  rewrite Hplace in Hres. exists m, e.
  split; [done |]. split; [done |]. split; [done |].
  rewrite !Z.mul_1_r in Herr.
  apply (scale_bound _ _ _ (2 ^ (ez + 1074))) in Herr; [| apply Z.pow_nonneg; lia].
  rewrite <- Z.mul_assoc, <- !Z.pow_add_r in Herr by lia.
  replace (e - ez + (ez + 1074)) with (e + 1074) in Herr by lia.
  rewrite Hmz, <- Z.mul_assoc, <- Z.pow_add_r in Herr by lia.
  by replace (ex - ez + (ez + 1074)) with (ex + 1074) in Herr by lia.
Qed.

Lemma new_location_place (A B q r : Z) :
  0 < B → A = B * q + r → 0 ≤ r < B → new_location B r = place A B q.
Proof.
  intros HB HA Hr. unfold place. replace (A - q * B) with r by lia.
  unfold new_location, new_location_even, new_location_odd.
  destruct (Z.even B) eqn:Hev; [done |].
  destruct (Z.eqb_spec r 0); [done |]. f_equal.
  assert (Hodd : Z.odd B = true) by (by rewrite <- Z.negb_even, Hev).
  apply Z.odd_spec in Hodd as [k Hk].
  destruct (Z.compare_spec (2 * r + 1) B), (Z.compare_spec (2 * r) B); try done; lia.
Qed.

Lemma Zdigits2_nonneg (m : Z) : 0 ≤ Zdigits2 m.
Proof. by destruct m. Qed.

Lemma Zdigits2_upper (m k : Z) : 0 ≤ m → 0 ≤ k → m < 2 ^ k → Zdigits2 m ≤ k.
Proof.
  intros Hm Hk Hlt. destruct (Z.eq_dec m 0) as [-> | ?]; [done |].
  destruct (Zdigits2_spec m ltac:(lia)) as (Hd & Hlo & _).
  destruct (Z.le_gt_cases (Zdigits2 m) k) as [? | Hgt]; [done |].
  pose proof (Z.pow_le_mono_r 2 k (Zdigits2 m - 1) ltac:(lia) ltac:(lia)). lia.
Qed.

Lemma Zdigits2_lower (m k : Z) : 0 ≤ k → 2 ^ k ≤ m → k + 1 ≤ Zdigits2 m.
Proof.
  intros Hk Hle. pose proof (Z.pow_pos_nonneg 2 k ltac:(lia) Hk).
  destruct (Zdigits2_spec m ltac:(lia)) as (Hd & _ & Hhi).
  destruct (Z.le_gt_cases (k + 1) (Zdigits2 m)) as [? | Hgt]; [done |].
  pose proof (Z.pow_le_mono_r 2 (Zdigits2 m) k ltac:(lia) ltac:(lia)). lia.
Qed.

(** The quotient of a division has at least the digits the operands leave it. *)
Lemma Zdigits2_div_lower (a b : positive) (s : Z) :
  0 ≤ s →
  Zdigits2 (Z.pos a) + s - Zdigits2 (Z.pos b) ≤ Zdigits2 (Z.pos a * 2 ^ s / Z.pos b).
Proof.
  intros Hs.
  destruct (Zdigits2_spec (Z.pos a) ltac:(lia)) as (Ha & Halo & _).
  destruct (Zdigits2_spec (Z.pos b) ltac:(lia)) as (Hb & _ & Hbhi).
  set (da := Zdigits2 (Z.pos a)) in *. set (db := Zdigits2 (Z.pos b)) in *.
  pose proof (Zdigits2_nonneg (Z.pos a * 2 ^ s / Z.pos b)) as Hq0.
  destruct (Z.le_gt_cases (da + s - db) 0) as [? | Hpos]; [lia |].
  assert (Hp : 0 < 2 ^ s) by (apply Z.pow_pos_nonneg; lia).
  enough (da + s - db - 1 + 1 ≤ Zdigits2 (Z.pos a * 2 ^ s / Z.pos b)) by lia.
  apply Zdigits2_lower; [lia |].
  apply Z.div_le_lower_bound; [lia |].
  assert (E : 2 ^ (da - 1) * 2 ^ s = 2 ^ (da + s - db - 1) * 2 ^ db).
  { rewrite <- !Z.pow_add_r by lia. f_equal. lia. }
  assert (0 < 2 ^ (da + s - db - 1)) by (apply Z.pow_pos_nonneg; lia).
  nia.
Qed.

Lemma SFdiv_core_binary_spec (mx my : positive) (ex ey : Z) :
  ∃ q e' s : Z,
    SFdiv_core_binary prec emax (Z.pos mx) ex (Z.pos my) ey
      = (q, e', place (Z.pos mx * 2 ^ s) (Z.pos my) q)
    ∧ 0 ≤ s ∧ s = ex - ey - e' ∧ 0 ≤ q
    ∧ q * Z.pos my ≤ Z.pos mx * 2 ^ s < (q + 1) * Z.pos my
    ∧ e' ≤ fexp prec emax (Zdigits2 q + e')
    ∧ (-1074 ≤ ex → -1074 ≤ ey → -2148 ≤ e' + ey).
Proof.
  unfold SFdiv_core_binary.
  set (e' := Z.min (fexp prec emax (Zdigits2 (Z.pos mx) + ex - (Zdigits2 (Z.pos my) + ey)))
               (ex - ey)).
  set (s := ex - ey - e').
  assert (Hs : 0 ≤ s) by (unfold s, e'; lia).
  assert (Hm' : match s with Z.pos _ => Z.shiftl (Z.pos mx) s | 0 => Z.pos mx | Z.neg _ => 0 end
                = Z.pos mx * 2 ^ s).
  { destruct s as [|p|p] eqn:Es; [cbn; lia | | lia]. by rewrite Z.shiftl_mul_pow2. }
  rewrite Hm'.
  pose proof (Z_div_mod (Z.pos mx * 2 ^ s) (Z.pos my) ltac:(lia)) as Hdiv.
  assert (Hq : Z.pos mx * 2 ^ s / Z.pos my = (Z.div_eucl (Z.pos mx * 2 ^ s) (Z.pos my)).1) by done.
  destruct (Z.div_eucl (Z.pos mx * 2 ^ s) (Z.pos my)) as [q r]. destruct Hdiv as [Hqr Hr].
  cbn [fst] in Hq.
  exists q, e', s. rewrite (new_location_place (Z.pos mx * 2 ^ s) (Z.pos my) q r) by lia.
  split; [done |]. split; [done |]. split; [done |].
  assert (Hq0 : 0 ≤ q).
  { rewrite <- Hq. apply Z.div_pos; [| lia].
    apply Z.mul_nonneg_nonneg; [lia | apply Z.pow_nonneg; lia]. }
  split; [done |]. split; [lia |]. split.
  - pose proof (Zdigits2_div_lower mx my s Hs) as Hd. rewrite Hq in Hd.
    unfold e' at 1. rewrite !fexp_eq. unfold s in Hd. lia.
  - intros Hx Hy. unfold e'. rewrite fexp_eq. lia.
Qed.

Lemma pow2_regroup (a b c d : Z) :
  0 ≤ a → 0 ≤ b → 0 ≤ c → 0 ≤ d → a + b = c + d → 2 ^ a * 2 ^ b = 2 ^ c * 2 ^ d.
Proof. intros. rewrite <- !Z.pow_add_r by done. by f_equal. Qed.

(** The quotient of two finite numbers with exponents in range. *)
Lemma SFdiv_spec (sx sy : bool) (mx my : positive) (ex ey : Z) :
  -1074 ≤ ex → -1074 ≤ ey →
  ∃ m e : Z,
    0 ≤ m ∧ fexp prec emax (Zdigits2 m + e) = e
    ∧ SFdiv prec emax (S754_finite sx mx ex) (S754_finite sy my ey)
      = round_result (xorb sx sy) m e
    ∧ 2 * Z.abs (m * 2 ^ (e + 1074) * (Z.pos my * 2 ^ (ey + 1074))
                 - Z.pos mx * 2 ^ (ex + 1074) * 2 ^ 1074)
      ≤ 2 ^ (e + 1074) * (Z.pos my * 2 ^ (ey + 1074)).
Proof.
  intros Hex Hey. cbn [SFdiv].
  destruct (SFdiv_core_binary_spec mx my ex ey)
    as (q & e' & s & -> & Hs & Es & Hq & HA & Hfexp & Hlow).
  specialize (Hlow Hex Hey).
  destruct (binary_round_aux_spec (xorb sx sy) q e' (Z.pos mx * 2 ^ s) (Z.pos my))
    as (m & e & Hm & He & Hc & Herr & ->); [lia | done | done | done |].
  exists m, e. split; [done |]. split; [done |]. split; [done |].
  assert (He1 : -1074 ≤ e) by (rewrite fexp_eq in Hc; lia).
  apply (scale_bound _ _ _ (2 ^ (e' + ey + 2148))) in Herr; [| apply Z.pow_nonneg; lia].
  pose proof (pow2_regroup (e - e') (e' + ey + 2148) (e + 1074) (ey + 1074)
                ltac:(lia) ltac:(lia) ltac:(lia) ltac:(lia) ltac:(lia)) as Epow.
  assert (E1 : m * 2 ^ (e - e') * Z.pos my * 2 ^ (e' + ey + 2148)
               = m * 2 ^ (e + 1074) * (Z.pos my * 2 ^ (ey + 1074))).
  { transitivity (m * Z.pos my * (2 ^ (e - e') * 2 ^ (e' + ey + 2148))); [ring |].
    rewrite Epow. ring. }
  assert (E2 : Z.pos mx * 2 ^ s * 2 ^ (e' + ey + 2148)
               = Z.pos mx * 2 ^ (ex + 1074) * 2 ^ 1074).
  { rewrite <- !Z.mul_assoc, <- !Z.pow_add_r by lia. f_equal. f_equal. lia. }
  assert (E3 : 2 ^ (e - e') * Z.pos my * 2 ^ (e' + ey + 2148)
               = 2 ^ (e + 1074) * (Z.pos my * 2 ^ (ey + 1074))).
  { transitivity (Z.pos my * (2 ^ (e - e') * 2 ^ (e' + ey + 2148))); [ring |].
    rewrite Epow. ring. }
  by rewrite E1, E2, E3 in Herr.
Qed.

Lemma unscale_bound (X A Y P : Z) :
  0 < P → 2 * Z.abs (X * P - A * P) ≤ Y * P → 2 * Z.abs (X - A) ≤ Y.
Proof.
  intros HP H. rewrite <- Z.mul_sub_distr_r, Z.abs_mul, (Z.abs_eq P) in H by lia. nia.
Qed.

(** [nearest_double] is a rounding of the decimal: the result is the
    canonical pair [(m, e)] with [m * 2^e] within half of [2^e] of
    [n * 10^E]. *)
Lemma nearest_double_spec (neg : bool) (n : positive) (E : Z) :
  ∃ m e : Z,
    0 ≤ m ∧ fexp prec emax (Zdigits2 m + e) = e
    ∧ nearest_double neg (Z.pos n) E = round_result neg m e
    ∧ 2 * Z.abs (m * 2 ^ (e + 1074) * 10 ^ Z.max (- E) 0
                 - Z.pos n * 10 ^ Z.max E 0 * 2 ^ 1074)
      ≤ 2 ^ (e + 1074) * 10 ^ Z.max (- E) 0.
Proof.
  unfold nearest_double. destruct (Z.leb_spec 0 E) as [HE | HE].
  - rewrite Z.max_r, Z.max_l by lia. change (10 ^ 0) with 1.
    assert (Hp : 0 < 10 ^ E) by (apply Z.pow_pos_nonneg; lia).
    destruct (Z.pos n * 10 ^ E) as [|p|p] eqn:Ep; try lia.
    assert (Hs : (if neg then Z.neg n else Z.pos n) * 10 ^ E = if neg then Z.neg p else Z.pos p).
    { destruct neg; [| done]. change (Z.neg n) with (- Z.pos n). rewrite Z.mul_opp_l, Ep. done. }
    rewrite Hs.
    destruct (binary_round_spec neg p 0 ltac:(lia)) as (m & e & Hm & Hc & Hres & Herr).
    exists m, e. split; [done |]. split; [done |]. split.
    + destruct neg; exact Hres.
    + rewrite !Z.mul_1_r. exact Herr.
  - rewrite Z.max_l, Z.max_r by lia. change (10 ^ 0) with 1. rewrite Z.mul_1_r.
    assert (Hp : 0 < 10 ^ (- E)) by (apply Z.pow_pos_nonneg; lia).
    destruct (SFdiv_spec neg false n (Z.to_pos (10 ^ (- E))) 0 0 ltac:(lia) ltac:(lia))
      as (m & e & Hm & Hc & Hres & Herr).
    exists m, e. split; [done |]. split; [done |]. split.
    + change 53 with prec. change 1024 with emax. rewrite Hres. by destruct neg.
    + rewrite Z2Pos.id in Herr by done. change (0 + 1074) with 1074 in Herr.
      apply (unscale_bound _ _ _ (2 ^ 1074)); [by apply Z.pow_pos_nonneg |].
      replace (m * 2 ^ (e + 1074) * 10 ^ (- E) * 2 ^ 1074)
        with (m * 2 ^ (e + 1074) * (10 ^ (- E) * 2 ^ 1074)) by ring.
      replace (2 ^ (e + 1074) * 10 ^ (- E) * 2 ^ 1074)
        with (2 ^ (e + 1074) * (10 ^ (- E) * 2 ^ 1074)) by ring.
      exact Herr.
Qed.

(** ** The double read back from six digits *)

Lemma valid_fixed_bound (s : bool) (m : positive) (e : Z) :
  valid_binary (S754_finite s m e) = true →
  -1074 ≤ e ∧ 0 < Z.pos m * 2 ^ (e + 1074) ≤ (2 ^ 53 - 1) * 2 ^ 2045.
Proof.
  intros Hv. destruct (valid_canonical s m e Hv) as [Hc He].
  rewrite fexp_eq in Hc.
  assert (Hd : Zdigits2 (Z.pos m) ≤ 53) by lia.
  destruct (Zdigits2_spec (Z.pos m) ltac:(lia)) as (Hd0 & _ & Hhi).
  pose proof (Z.pow_le_mono_r 2 (Zdigits2 (Z.pos m)) 53 ltac:(lia) Hd) as Hp.
  pose proof (Z.pow_le_mono_r 2 (e + 1074) 2045 ltac:(lia) ltac:(lia)) as Hq.
  assert (Hq0 : 0 < 2 ^ (e + 1074)) by (apply Z.pow_pos_nonneg; lia).
  split; [lia |]. split; [lia |].
  apply Z.mul_le_mono_nonneg; lia.
Qed.

(** The six-digit decimal of a finite double is at most [1.79769e308]. *)
Lemma decimal_bounded (u D k : Z) :
  0 < u ≤ (2 ^ 53 - 1) * 2 ^ 2045 → 10 ^ 5 ≤ D < 10 ^ 6 → 0 < k →
  2 * Z.abs (u * 5 ^ 1074 - D * 10 ^ k) ≤ 10 ^ k →
  D * 10 ^ k ≤ 179769 * 10 ^ 1377.
Proof.
  intros Hu HD Hk Herr.
  assert (HV : u * 5 ^ 1074 ≤ (2 ^ 53 - 1) * 2 ^ 2045 * 5 ^ 1074).
  { apply Z.mul_le_mono_nonneg_r; [apply Z.pow_nonneg |]; lia. }
  change (10 ^ 5) with 100000 in HD. change (10 ^ 6) with 1000000 in HD.
  assert (HT : 0 < 10 ^ k) by (apply Z.pow_pos_nonneg; lia).
  set (Vmax := (2 ^ 53 - 1) * 2 ^ 2045 * 5 ^ 1074) in *.
  set (V := u * 5 ^ 1074) in *.
  destruct (Z.le_gt_cases 1378 k) as [Hbig | Hsmall].
  { exfalso.
    assert (C1 : 2 * Vmax < 199999 * 10 ^ 1378)
      by (apply Z.ltb_lt; vm_compute; reflexivity).
    pose proof (Z.pow_le_mono_r 10 1378 k ltac:(lia) Hbig) as Hp.
    set (T := 10 ^ k) in *. set (T0 := 10 ^ 1378) in *. clearbody Vmax V T T0.
    assert (199999 * T ≤ (2 * D - 1) * T) by nia. lia. }
  destruct (Z.eq_dec k 1377) as [-> | Hne].
  - assert (C2 : 2 * Vmax + 10 ^ 1377 < 359540 * 10 ^ 1377)
      by (apply Z.ltb_lt; vm_compute; reflexivity).
    set (T := 10 ^ 1377) in *. clearbody Vmax V T.
    assert (HD' : D ≤ 179769).
    { destruct (Z.le_gt_cases D 179769) as [? | Hgt]; [done | exfalso].
      assert (359540 * T ≤ 2 * D * T) by nia. lia. }
    nia.
  - assert (C3 : 1000000 * 10 ^ 1376 ≤ 179769 * 10 ^ 1377)
      by (apply Z.leb_le; vm_compute; reflexivity).
    pose proof (Z.pow_le_mono_r 10 k 1376 ltac:(lia) ltac:(lia)) as Hp.
    set (T := 10 ^ k) in *. set (T0 := 10 ^ 1376) in *. set (T1 := 10 ^ 1377) in *.
    clearbody Vmax V T T0 T1.
    assert (D * T ≤ 1000000 * T0) by nia. lia.
Qed.

(** Such a decimal rounds to a double below the overflow threshold. *)
Lemma decimal_no_overflow (m e Xs : Z) :
  0 ≤ m → fexp prec emax (Zdigits2 m + e) = e →
  2 * Z.abs (m * 2 ^ (e + 1074) * 5 ^ 1074 - Xs) ≤ 2 ^ (e + 1074) * 5 ^ 1074 →
  Xs ≤ 179769 * 10 ^ 1377 →
  e ≤ 971.
Proof.
  intros Hm Hc Herr HX. destruct (Z.le_gt_cases e 971) as [? | Hbig]; [done | exfalso].
  rewrite fexp_eq in Hc.
  assert (Hd : Zdigits2 m = 53) by lia.
  assert (Hm0 : 0 < m) by (destruct m; try lia; cbn in Hd; lia).
  destruct (Zdigits2_spec m Hm0) as (_ & Hlo & _). rewrite Hd in Hlo.
  change (2 ^ (53 - 1)) with 4503599627370496 in Hlo.
  pose proof (Z.pow_le_mono_r 2 2046 (e + 1074) ltac:(lia) ltac:(lia)) as Hq.
  assert (C : 2 * (179769 * 10 ^ 1377) < 2 ^ 2046 * 5 ^ 1074 * (2 * 4503599627370496 - 1))
    by (apply Z.ltb_lt; vm_compute; reflexivity).
  assert (HW : 0 < 5 ^ 1074) by (apply Z.pow_pos_nonneg; lia).
  assert (HQ : 0 < 2 ^ 2046) by (apply Z.pow_pos_nonneg; lia).
  set (q := 2 ^ (e + 1074)) in *. set (W := 5 ^ 1074) in *. set (Q0 := 2 ^ 2046) in *.
  set (X0 := 179769 * 10 ^ 1377) in *. clearbody q W Q0 X0.
  assert (H1 : q * W * (2 * m - 1) ≤ 2 * Xs) by lia.
  assert (H2 : Q0 * W ≤ q * W) by nia.
  assert (H3 : Q0 * W * (2 * 4503599627370496 - 1) ≤ q * W * (2 * m - 1)).
  { apply Z.mul_le_mono_nonneg; nia. }
  lia.
Qed.

(** A double within half a quantum of a decimal that is within half a
    unit of its sixth digit of [u] is within [u / 10^5] of [u]. *)
Lemma decimal_close (u m e Xs T : Z) :
  0 < u → 0 ≤ m → fexp prec emax (Zdigits2 m + e) = e →
  2 * Z.abs (u * 5 ^ 1074 - Xs) ≤ T → 10 ^ 5 * T ≤ Xs →
  2 * Z.abs (m * 2 ^ (e + 1074) * 5 ^ 1074 - Xs) ≤ 2 ^ (e + 1074) * 5 ^ 1074 →
  10 ^ 5 * Z.abs (m * 2 ^ (e + 1074) - u) ≤ u.
Proof.
  intros Hu Hm Hc H1 H2 H3.
  assert (HW : 0 < 5 ^ 1074) by (apply Z.pow_pos_nonneg; lia).
  change (10 ^ 5) with 100000 in *.
  rewrite fexp_eq in Hc.
  set (W := 5 ^ 1074) in *. clearbody W.
  destruct (Z.eq_dec e (-1074)) as [-> | Hne].
  - change (2 ^ (-1074 + 1074)) with 1 in *. rewrite !Z.mul_1_r in *. rewrite Z.mul_1_l in H3.
    set (t := Z.abs (m - u)).
    assert (Ht : 0 ≤ t) by (unfold t; lia).
    assert (H4 : 2 * t * W ≤ W + T).
    { assert (E : t * W = Z.abs (m * W - u * W)).
      { unfold t. rewrite <- Z.mul_sub_distr_r, Z.abs_mul, (Z.abs_eq W); lia. }
      lia. }
    destruct (Z.eq_dec t 0) as [-> | Ht0]; [lia |].
    assert (H5 : (2 * t - 1) * W ≤ T) by lia.
    assert (H6 : (200000 - 1) * T ≤ 2 * u * W) by lia.
    assert (H7 : (200000 - 1) * ((2 * t - 1) * W) ≤ 2 * u * W) by nia.
    assert (H8 : (200000 - 1) * (2 * t - 1) ≤ 2 * u) by nia.
    nia.
  - assert (Hd : Zdigits2 m = 53) by lia.
    assert (Hm0 : 0 < m) by (destruct m; try lia; cbn in Hd; lia).
    destruct (Zdigits2_spec m Hm0) as (_ & Hlo & _). rewrite Hd in Hlo.
    change (2 ^ (53 - 1)) with 4503599627370496 in Hlo.
    assert (Hq : 0 < 2 ^ (e + 1074)) by (apply Z.pow_pos_nonneg; lia).
    set (q := 2 ^ (e + 1074)) in *. clearbody q.
    set (a := m * q * W) in *. set (b := u * W) in *.
    assert (Hqa : 4503599627370496 * (q * W) ≤ a) by (unfold a; nia).
    assert (H4 : 100000 * Z.abs (a - b) ≤ b) by lia.
    assert (E : Z.abs (a - b) = Z.abs (m * q - u) * W).
    { unfold a, b. rewrite <- Z.mul_sub_distr_r, Z.abs_mul, (Z.abs_eq W); lia. }
    rewrite E in H4. unfold b in H4. nia.
Qed.

Lemma round_result_in_range (sx : bool) (m e : Z) :
  0 ≤ m → fexp prec emax (Zdigits2 m + e) = e → e ≤ 971 →
  SFfinite (round_result sx m e) = true.
Proof.
  intros Hm Hc He. unfold round_result. destruct m as [|p|p]; [done | | lia].
  change (emax - prec) with 971. by destruct (Z.leb_spec e 971); [| lia].
Qed.

Lemma pow10_split : 2 ^ 1074 * 5 ^ 1074 = 10 ^ 1074.
Proof. by rewrite <- Z.pow_mul_l. Qed.

(** The double read back from the six-digit decimal of a finite double
    is finite, has its sign, is within half a quantum of the decimal, and
    is within one part in [10^5] of the double. *)
Lemma nearest_double_close (s : bool) (m : positive) (e D k N : Z) (j : nat) :
  valid_binary (S754_finite s m e) = true →
  10 ^ 5 ≤ D < 10 ^ 6 → 0 < k →
  2 * Z.abs (scaled m e - D * 10 ^ k) ≤ 10 ^ k →
  D = N * 10 ^ Z.of_nat j →
  SFfinite (nearest_double s N (k - 1074 + Z.of_nat j)) = true
  ∧ valid_binary (nearest_double s N (k - 1074 + Z.of_nat j)) = true
  ∧ SFfixed (nearest_double s N (k - 1074 + Z.of_nat j))
    = cond_Zopp s (Z.abs (SFfixed (nearest_double s N (k - 1074 + Z.of_nat j))))
  ∧ 2 * Z.abs (Z.abs (SFfixed (nearest_double s N (k - 1074 + Z.of_nat j))) * 5 ^ 1074
               - D * 10 ^ k)
    ≤ SFquantum (nearest_double s N (k - 1074 + Z.of_nat j)) * 5 ^ 1074
  ∧ 10 ^ 5 * Z.abs (SFfixed (nearest_double s N (k - 1074 + Z.of_nat j))
                    - SFfixed (S754_finite s m e))
    ≤ Z.abs (SFfixed (S754_finite s m e)).
Proof.
  intros Hv HD Hk Herr HN.
  destruct (valid_fixed_bound s m e Hv) as [He Hu].
  set (u := Z.pos m * 2 ^ (e + 1074)) in *.
  assert (Hscaled : scaled m e = u * 5 ^ 1074).
  { unfold scaled, u. replace (1074 + e) with (e + 1074) by lia. ring. }
  rewrite Hscaled in Herr.
  assert (Hj : 0 < 10 ^ Z.of_nat j) by (apply Z.pow_pos_nonneg; lia).
  assert (HN0 : 0 < N).
  { change (10 ^ 5) with 100000 in HD. destruct (Z.lt_ge_cases 0 N) as [? | Hle]; [done |].
    assert (N * 10 ^ Z.of_nat j ≤ 0) by (apply Z.mul_nonpos_nonneg; lia). lia. }
  destruct N as [|n|n]; try lia.
  set (E := k - 1074 + Z.of_nat j).
  destruct (nearest_double_spec s n E) as (m' & e' & Hm' & Hc' & Hres & Hround).
  assert (HQ : 0 < 10 ^ Z.max (- E) 0) by (apply Z.pow_pos_nonneg; lia).
  assert (He'0 : -1074 ≤ e') by (rewrite fexp_eq in Hc'; lia).
  assert (Hq' : 0 < 2 ^ (e' + 1074)) by (apply Z.pow_pos_nonneg; lia).
  assert (Hround' : 2 * Z.abs (m' * 2 ^ (e' + 1074) * 5 ^ 1074 - D * 10 ^ k)
                    ≤ 2 ^ (e' + 1074) * 5 ^ 1074).
  { apply (scale_bound _ _ _ (5 ^ 1074)) in Hround; [| apply Z.pow_nonneg; lia].
    apply (unscale_bound _ _ _ (10 ^ Z.max (- E) 0)); [done |].
    assert (E1 : Z.pos n * 10 ^ Z.max E 0 * 2 ^ 1074 * 5 ^ 1074
                 = D * 10 ^ k * 10 ^ Z.max (- E) 0).
    { rewrite HN, <- !Z.mul_assoc, pow10_split, <- !Z.pow_add_r by lia.
      f_equal. f_equal. unfold E. lia. }
    rewrite E1 in Hround.
    replace (m' * 2 ^ (e' + 1074) * 5 ^ 1074 * 10 ^ Z.max (- E) 0)
      with (m' * 2 ^ (e' + 1074) * 10 ^ Z.max (- E) 0 * 5 ^ 1074) by ring.
    replace (2 ^ (e' + 1074) * 5 ^ 1074 * 10 ^ Z.max (- E) 0)
      with (2 ^ (e' + 1074) * 10 ^ Z.max (- E) 0 * 5 ^ 1074) by ring.
    exact Hround. }
  pose proof (decimal_bounded u D k Hu HD Hk Herr) as HX.
  pose proof (decimal_no_overflow m' e' (D * 10 ^ k) Hm' Hc' Hround' HX) as He'.
  pose proof (round_result_in_range s m' e' Hm' Hc' He') as Hfin.
  destruct (round_result_finite s m' e' Hm' Hc' Hfin) as (Hfix & Hquantum & Hvalid).
  rewrite Hres. split; [done |]. split; [done |].
  rewrite Hfix, Hquantum. cbn [SFfixed]. fold u.
  assert (HT : 10 ^ 5 * 10 ^ k ≤ D * 10 ^ k).
  { apply Z.mul_le_mono_nonneg_r; [apply Z.pow_nonneg |]; lia. }
  assert (Hu0 : 0 < u) by lia.
  pose proof (decimal_close u m' e' (D * 10 ^ k) (10 ^ k) Hu0 Hm' Hc' Herr HT Hround')
    as Hclose.
  assert (Hnn : 0 ≤ m' * 2 ^ (e' + 1074)) by (apply Z.mul_nonneg_nonneg; lia).
  clear Hround Herr HT HX Hu HD Hscaled Hfix Hquantum.
  set (a := m' * 2 ^ (e' + 1074)) in *. clearbody a u.
  assert (Habs : Z.abs (cond_Zopp s a) = a) by (destruct s; cbn [cond_Zopp]; lia).
  rewrite Habs. split; [done |]. split; [done |].
  rewrite cond_Zopp_sub_abs.
  replace (Z.abs (cond_Zopp s u)) with u by (destruct s; cbn [cond_Zopp]; lia). exact Hclose.
Qed.

Lemma rounded_decimal_finite (neg : bool) (N E : Z) :
  SFfinite (nearest_double neg N E) = true →
  rounded_decimal neg N E = Some (SF2Prim (nearest_double neg N E)).
Proof. unfold rounded_decimal. by destruct (nearest_double neg N E). Qed.

(** The text of every double is its six-digit numeral. *)
Lemma number_g6_numeral (c : float) : six_digit_numeral c (number_g6 c).
Proof.
  pose proof (text_reads_back c) as H. unfold six_digit_numeral.
  pose proof (Prim2SF_valid c) as Hv.
  destruct (Prim2SF c) as [neg | neg | | neg m e] eqn:Hc; try done.
  destruct H as (D & k & N & j & body & HD & Hk & Herr & HN & Hsign & Hread & Hback).
  destruct (nearest_double_close neg m e D k N j Hv HD Hk Herr HN)
    as (Hfin & Hvalid & Hsgn & Hhalf & Hclose).
  exists D, k, N, j, body, (SF2Prim (nearest_double neg N (k - 1074 + Z.of_nat j))).
  unfold finite, fixed, quantum. rewrite Prim2SF_SF2Prim, Hc by done.
  rewrite Hback, rounded_decimal_finite by done. done.
Qed.

(** Every double is read back from its own text, and closely. *)
Lemma toDouble_number_g6 (c : float) :
  ∃ c' : float, toDouble (number_g6 c) = Some c' ∧ read_back_close c c'.
Proof.
  pose proof (number_g6_numeral c) as H. unfold six_digit_numeral, read_back_close in *.
  destruct (Prim2SF c) as [neg | neg | | neg m e]; try (by exists c).
  destruct H as (D & k & N & j & body & c' & _ & _ & _ & _ & _ & _ & Hback & Hfin & _ & _ & Hclose).
  by exists c'.
Qed.



(** C3. On doubles, for every vector, [domElement] followed by the
    constructor from the element returns the vector each of whose
    components is the component as it reads back from its six
    significant digits: a finite component comes back finite and within
    one part in [10^5] of itself, a zero, an infinity or NaN comes back
    as itself. Nothing is printed and no object changes, whatever the
    tag name, the document and the storage the new vector is built in. *)
Theorem domElement_roundtrip
    (uninit : Vec float) (this : loc) (name : string) (document : QDomDocument)
    (w : World float) :
  Vec_ctor uninit (domElement this name document w).1 (domElement this name document w).2
    = (mkVec (through_text (x (heap w !!! this))) (through_text (y (heap w !!! this)))
         (through_text (z (heap w !!! this))), w)
  ∧ read_back_close (x (heap w !!! this)) (through_text (x (heap w !!! this)))
  ∧ read_back_close (y (heap w !!! this)) (through_text (y (heap w !!! this)))
  ∧ read_back_close (z (heap w !!! this)) (through_text (z (heap w !!! this))).
Proof.
  assert (Hback : ∀ c : float,
            QString_toDouble (QString_number c) = Some (through_text c)
            ∧ read_back_close c (through_text c)).
  { intros c. unfold through_text. cbn [QString_toDouble QString_number float_text].
    by destruct (toDouble_number_g6 c) as (c' & -> & Hc). }
  rewrite domElement_run. cbn [fst snd]. rewrite Vec_ctor_run.
  destruct (read_attribute_written name (x (heap w !!! this)) (y (heap w !!! this))
              (z (heap w !!! this))) as (-> & -> & -> & -> & -> & ->).
  destruct (Hback (x (heap w !!! this))) as [-> Hx].
  destruct (Hback (y (heap w !!! this))) as [-> Hy].
  destruct (Hback (z (heap w !!! this))) as [-> Hz].
  split; [| done]. destruct w as [h ds]. cbn. by rewrite app_nil_r.
Qed.

(** [Vec(1.5, -2.25, 0)] written under ["pos"] and read into storage that
    held [(7, 8, 9)] comes back as it was; [Vec(0.1234567, 0, 0)] comes
    back as [(0.123457, 0, 0)]. *)
Example domElement_roundtrip_pos :
  Vec_ctor garbage (domElement 1 "pos" myDocument pos_scenario).1
      (domElement 1 "pos" myDocument pos_scenario).2
    = (mkVec 1.5%float (-2.25)%float 0%float, pos_scenario)
  ∧ Vec_ctor garbage (domElement 1 "pos" myDocument digits_scenario).1
      (domElement 1 "pos" myDocument digits_scenario).2
    = (mkVec 0.123457%float 0%float 0%float, digits_scenario).
Proof. split; vm_compute; reflexivity. Qed.

(** Section 8 of the spec, last scenario: [Vec(1.5, -2.25, 0)] under the
    tag ["pos"] is [<pos x="1.5" y="-2.25" z="0" />], and the call
    changes nothing. *)
Theorem domElement_pos_scenario :
  domElement 1 "pos" myDocument pos_scenario
    = (mkElement "pos" (<["z" := "0"]> (<["y" := "-2.25"]> (<["x" := "1.5"]> ∅))),
       pos_scenario).
Proof. vm_compute. reflexivity. Qed.

(** ** Rounding errors of the arithmetic of doubles *)








(** ** Rounding errors of the projection

    Each rounding multiplies the exact value by a factor between
    [1 - 2^-53] and [1 + 2^-53]; the factors of the eight roundings between
    [v] and the result are collected in [near]. *)

Section ErrorAnalysis.
#[local] Open Scope R_scope.

Lemma half_ulp_bounds : 0 < half_ulp < 1 / 2.
Proof.
  unfold half_ulp. split; [apply Rinv_0_lt_compat; lra |].
  apply (Rmult_lt_reg_r (2 ^ 53)); [lra |]. rewrite Rinv_l by lra. lra.
Qed.



Lemma pow_high_ge_1 (k : nat) : 1 <= (1 + half_ulp) ^ k.
Proof. apply pow_R1_Rle. pose proof half_ulp_bounds. lra. Qed.



Lemma near_refl (z : R) : near 0 z z.
Proof. exists 1. cbn [pow]. split; lra. Qed.









End ErrorAnalysis.


Lemma finite_SF (c : float) :
  finite c = true → SFfinite (Prim2SF c) = true ∧ valid_binary (Prim2SF c) = true.
Proof. intros H. split; [exact H | apply Prim2SF_valid]. Qed.


















(** * Further properties *)

(** ** Doubles: zeros and NaN *)

Lemma SFcompare_refl (f : spec_float) : f ≠ S754_nan → SFcompare f f = Some Eq.
Proof.
  destruct f as [s | s | | s m e]; intros Hf; try done; cbn.
  - by destruct s.
  - rewrite Z.compare_refl, Pos.compare_cont_refl. by destruct s.
Qed.

Lemma is_nan_Prim2SF (c : float) : PrimFloat.is_nan c = true ↔ Prim2SF c = S754_nan.
Proof.
  unfold PrimFloat.is_nan. rewrite FloatAxioms.eqb_spec. unfold SFeqb. split.
  - intros Hc. destruct (Prim2SF c) eqn:E; try done;
      rewrite SFcompare_refl in Hc by done; done.
  - by intros ->.
Qed.

Lemma Prim2SF_nan_eq (c : float) : Prim2SF c = S754_nan → c = nan.
Proof. intros Hc. by rewrite <- (SF2Prim_Prim2SF c), Hc. Qed.

Lemma is_zero_Prim2SF (c : float) :
  PrimFloat.is_zero c = true → ∃ s, Prim2SF c = S754_zero s.
Proof.
  unfold PrimFloat.is_zero. rewrite FloatAxioms.eqb_spec. unfold SFeqb.
  change (Prim2SF PrimFloat.zero) with (S754_zero false).
  destruct (Prim2SF c) as [s | s | | s m e]; cbn; try done; [by exists s | |];
    by destruct s.
Qed.

Lemma SFmul_zero_r (a : spec_float) (s : bool) :
  zero_or_nan (SFmul prec emax a (S754_zero s)).
Proof. by destruct a. Qed.

Lemma SFadd_zero_or_nan (a b : spec_float) :
  zero_or_nan a → zero_or_nan b → zero_or_nan (SFadd prec emax a b).
Proof. destruct a as [[] | | |], b as [[] | | |]; done. Qed.

Lemma SFdiv_zero_or_nan (a : spec_float) (s : bool) :
  zero_or_nan a → SFdiv prec emax a (S754_zero s) = S754_nan.
Proof. by destruct a. Qed.

Lemma SFmul_nan_l (b : spec_float) : SFmul prec emax S754_nan b = S754_nan.
Proof. done. Qed.

Lemma SFsub_nan_r (a : spec_float) : SFsub prec emax a S754_nan = S754_nan.
Proof. by destruct a. Qed.

Lemma SFdiv_nan_r (a : spec_float) : SFdiv prec emax a S754_nan = S754_nan.
Proof. by destruct a. Qed.

Lemma squaredNorm_null (d : Vec float) :
  null_vector d → Prim2SF (squaredNorm d) = S754_zero false.
Proof.
  intros (Hx & Hy & Hz).
  apply is_zero_Prim2SF in Hx as [sx Hx], Hy as [sy Hy], Hz as [sz Hz].
  unfold squaredNorm. cbn [s_add s_mul float_scalar].
  rewrite !add_spec, !mul_spec, Hx, Hy, Hz. by destruct sx, sy, sz.
Qed.

Lemma dot_null (v d : Vec float) : null_vector d → zero_or_nan (Prim2SF (dot v d)).
Proof.
  intros (Hx & Hy & Hz).
  apply is_zero_Prim2SF in Hx as [sx Hx], Hy as [sy Hy], Hz as [sz Hz].
  unfold dot. cbn [s_add s_mul float_scalar].
  rewrite !add_spec, !mul_spec, Hx, Hy, Hz.
  repeat apply SFadd_zero_or_nan; apply SFmul_zero_r.
Qed.

Lemma scale_nan (k : float) (d : Vec float) :
  Prim2SF k = S754_nan → scale k d = mkVec nan nan nan.
Proof.
  intros Hk. unfold scale. cbn [s_mul float_scalar].
  f_equal; apply Prim2SF_nan_eq; by rewrite mul_spec, Hk.
Qed.

Lemma minus_nan (v : Vec float) : minus v (mkVec nan nan nan) = mkVec nan nan nan.
Proof.
  unfold minus. cbn [s_sub float_scalar x y z].
  f_equal; apply Prim2SF_nan_eq; rewrite sub_spec; apply SFsub_nan_r.
Qed.

(** ** Doubles: the null axis and the NaN axis *)

(** With a null direction or normal (three zeros of either sign) both
    projections leave NaN in all three components of the receiver, whatever
    it held (infinities and NaN included); a debug build prints the warning,
    with [norm=0]. *)
Theorem projections_null_argument (QT_NO_DEBUG : bool) (this arg : loc) (w : World float) :
  null_vector (heap w !!! arg) →
  projectOnAxis QT_NO_DEBUG this arg w =
    (tt, mkWorld (<[this := mkVec nan nan nan]> (heap w))
           (diagnostics w ++
              if QT_NO_DEBUG then []
              else [QWarning "Vec::projectOnAxis: axis direction is not normalized (norm=%f)."
                      0%float]))
  ∧ projectOnPlane QT_NO_DEBUG this arg w =
    (tt, mkWorld (<[this := mkVec nan nan nan]> (heap w))
           (diagnostics w ++
              if QT_NO_DEBUG then []
              else [QWarning "Vec::projectOnPlane: plane normal is not normalized (norm=%f)."
                      0%float])).
Proof.
  intros Hd. rewrite projectOnAxis_run, projectOnPlane_run.
  set (d := heap w !!! arg) in *. set (v := heap w !!! this).
  pose proof (squaredNorm_null d Hd) as Hsq.
  assert (Hlt : (squaredNorm d <? s_eps)%sc = true).
  { cbn [s_ltb s_eps float_scalar]. rewrite ltb_spec, Hsq. vm_compute. reflexivity. }
  assert (Hnorm : norm d = 0%float).
  { unfold norm. cbn [s_sqrt float_scalar].
    rewrite <- (SF2Prim_Prim2SF (PrimFloat.sqrt _)), sqrt_spec, Hsq. reflexivity. }
  assert (Hk : Prim2SF (dot v d / squaredNorm d)%sc = S754_nan).
  { cbn [s_div float_scalar]. rewrite div_spec, Hsq.
    apply SFdiv_zero_or_nan, dot_null, Hd. }
  unfold projection_warnings. rewrite Hlt, Hnorm, (scale_nan _ _ Hk), minus_nan. done.
Qed.

(** The null axis [(0, -0, 0)] met by the receiver [(inf, 2, -3)]. *)
Lemma projections_null_argument_scenario :
  null_vector (heap null_scenario !!! 2%positive)
  ∧ projectOnAxis false 1 2 null_scenario =
    (tt, mkWorld (<[1%positive := mkVec nan nan nan]> (heap null_scenario))
           [QWarning "Vec::projectOnAxis: axis direction is not normalized (norm=%f)."
              0%float]).
Proof.
  assert (Hd : null_vector (heap null_scenario !!! 2%positive))
    by (repeat split; vm_compute; reflexivity).
  split; [exact Hd |].
  exact (proj1 (projections_null_argument false 1 2 null_scenario Hd)).
Defined.

(** When the squared norm of the direction or normal is NaN, the test
    [squaredNorm() < 1.0E-10] is false: nothing is printed, in a debug build
    either, and both projections leave NaN in all three components of the
    receiver. *)
Theorem projections_nan_argument (QT_NO_DEBUG : bool) (this arg : loc) (w : World float) :
  PrimFloat.is_nan (squaredNorm (heap w !!! arg)) = true →
  projectOnAxis QT_NO_DEBUG this arg w =
    (tt, mkWorld (<[this := mkVec nan nan nan]> (heap w)) (diagnostics w))
  ∧ projectOnPlane QT_NO_DEBUG this arg w =
    (tt, mkWorld (<[this := mkVec nan nan nan]> (heap w)) (diagnostics w)).
Proof.
  intros Hsq%is_nan_Prim2SF. rewrite projectOnAxis_run, projectOnPlane_run.
  set (d := heap w !!! arg) in *. set (v := heap w !!! this).
  assert (Hlt : (squaredNorm d <? s_eps)%sc = false).
  { cbn [s_ltb float_scalar]. by rewrite ltb_spec, Hsq. }
  assert (Hk : Prim2SF (dot v d / squaredNorm d)%sc = S754_nan).
  { cbn [s_div float_scalar]. rewrite div_spec, Hsq. apply SFdiv_nan_r. }
  unfold projection_warnings. rewrite Hlt, (scale_nan _ _ Hk), minus_nan.
  destruct QT_NO_DEBUG; by rewrite app_nil_r.
Qed.

(** The axis [(1, NaN, 0)] in a debug build. *)
Lemma projections_nan_argument_scenario :
  PrimFloat.is_nan (squaredNorm (heap nan_scenario !!! 2%positive)) = true
  ∧ projectOnAxis false 1 2 nan_scenario =
    (tt, mkWorld (<[1%positive := mkVec nan nan nan]> (heap nan_scenario)) []).
Proof.
  assert (Hd : PrimFloat.is_nan (squaredNorm (heap nan_scenario !!! 2%positive)) = true)
    by (vm_compute; reflexivity).
  split; [exact Hd |].
  exact (proj1 (projections_nan_argument false 1 2 nan_scenario Hd)).
Defined.

(** ** How the projections compose *)

Lemma seq_run {F B : Type} (m : M F unit) (k : M F B) (w : World F) :
  (m ;; k) w = k (m w).2.
Proof. unfold mbind, M_bind. by destruct (m w). Qed.

Lemma bind_run {F A B : Type} (m : M F A) (k : A → M F B) (w : World F) :
  (m ≫= k) w = k (m w).1 (m w).2.
Proof. unfold mbind, M_bind. by destruct (m w). Qed.

(** [projectOnPlane(n)] leaves exactly the receiver minus what
    [projectOnAxis(n)] leaves, in any arithmetic (bit for bit on doubles);
    the two print under the same condition and change no other object. *)
Theorem projectOnPlane_is_residual {F : Type} `{Scalar F}
    (QT_NO_DEBUG : bool) (this arg : loc) (w : World F) :
  heap (projectOnPlane QT_NO_DEBUG this arg w).2 !!! this
    = minus (heap w !!! this) (heap (projectOnAxis QT_NO_DEBUG this arg w).2 !!! this)
  ∧ length (diagnostics (projectOnPlane QT_NO_DEBUG this arg w).2)
    = length (diagnostics (projectOnAxis QT_NO_DEBUG this arg w).2)
  ∧ ∀ l : loc, l ≠ this →
      heap (projectOnPlane QT_NO_DEBUG this arg w).2 !! l = heap w !! l
      ∧ heap (projectOnAxis QT_NO_DEBUG this arg w).2 !! l = heap w !! l.
Proof.
  rewrite projectOnAxis_run, projectOnPlane_run. cbn [snd heap diagnostics].
  rewrite !lookup_total_insert_eq. split; [done |]. split.
  - rewrite !length_app. unfold projection_warnings.
    by destruct QT_NO_DEBUG, (squaredNorm (heap w !!! arg) <? s_eps)%sc.
  - intros l Hl. by rewrite !lookup_insert_ne.
Qed.

(** ** More on elements *)

(** The constructor looks at the attributes ["x"], ["y"] and ["z"] and at
    nothing else: two elements that agree on these three give the same
    vector and as many warnings, whatever their tag names, their other
    attributes and the storage the vectors are built in; no object changes. *)
Theorem Vec_ctor_reads_only_xyz {F : Type} `{Scalar F} `{QtText F}
    (u1 u2 : Vec F) (e1 e2 : QDomElement) (w : World F) :
  attributes e1 !! "x" = attributes e2 !! "x" →
  attributes e1 !! "y" = attributes e2 !! "y" →
  attributes e1 !! "z" = attributes e2 !! "z" →
  (Vec_ctor u1 e1 w).1 = (Vec_ctor u2 e2 w).1
  ∧ length (diagnostics (Vec_ctor u1 e1 w).2) = length (diagnostics (Vec_ctor u2 e2 w).2)
  ∧ heap (Vec_ctor u1 e1 w).2 = heap w
  ∧ heap (Vec_ctor u2 e2 w).2 = heap w.
Proof.
  intros Hx Hy Hz. rewrite !Vec_ctor_run.
  unfold read_attribute, attribute_warnings. by rewrite Hx, Hy, Hz.
Qed.

(** [<pos x="1.5" z="3" />] and [<vector z="3" w="9" x="1.5" />]. *)
Lemma Vec_ctor_reads_only_xyz_scenario :
  attributes missing_y !! "x" = attributes reordered !! "x"
  ∧ attributes missing_y !! "y" = attributes reordered !! "y"
  ∧ attributes missing_y !! "z" = attributes reordered !! "z"
  ∧ (Vec_ctor garbage missing_y pos_scenario).1
    = (Vec_ctor (mkVec 0%float 0%float 0%float) reordered pos_scenario).1.
Proof.
  assert (Hx : attributes missing_y !! "x" = attributes reordered !! "x") by reflexivity.
  assert (Hy : attributes missing_y !! "y" = attributes reordered !! "y") by reflexivity.
  assert (Hz : attributes missing_y !! "z" = attributes reordered !! "z") by reflexivity.
  split; [exact Hx |]. split; [exact Hy |]. split; [exact Hz |].
  exact (proj1 (Vec_ctor_reads_only_xyz garbage (mkVec 0%float 0%float 0%float)
                  missing_y reordered pos_scenario Hx Hy Hz)).
Defined.

Lemma filter_nil_none {A : Type} (P : A → Prop) `{∀ a, Decision (P a)} (l : list A) :
  (∀ a, a ∈ l → ¬ P a) → filter P l = [].
Proof.
  induction l as [|b l IH]; intros Hl; [done |].
  rewrite filter_cons_False by (apply Hl; left).
  apply IH. intros a Ha. apply Hl. by right.
Qed.

(** The constructor prints one warning for each of ["x"], ["y"], ["z"],
    in that order, that is absent or is not a number, naming it, and
    nothing else; it is silent exactly when the three are numbers. *)
Theorem Vec_ctor_warnings {F : Type} `{Scalar F} `{QtText F}
    (uninit : Vec F) (e : QDomElement) (w : World F) :
  diagnostics (Vec_ctor uninit e w).2
    = diagnostics w
      ++ (DomWarning <$> filter (λ a, attribute_number e a = None) attribute)
  ∧ (diagnostics (Vec_ctor uninit e w).2 = diagnostics w
     ↔ ∀ a, a ∈ attribute → is_Some (attribute_number (F := F) e a)).
Proof.
  rewrite Vec_ctor_run. cbn [snd diagnostics].
  assert (Hw : ∀ a, attribute_warnings (F := F) e a
                    = DomWarning <$> filter (λ a, attribute_number (F := F) e a = None) [a]).
  { intros a. unfold attribute_warnings, attribute_number.
    rewrite filter_singleton by exact [].
    destruct (attributes e !! a) as [s|]; cbn; [| done].
    by destruct (QString_toDouble s). }
  assert (Heq : attribute_warnings (F := F) e "x" ++ attribute_warnings e "y"
                ++ attribute_warnings e "z"
                = DomWarning <$> filter (λ a, attribute_number (F := F) e a = None) attribute).
  { rewrite !Hw. unfold attribute.
    change ["x"; "y"; "z"] with (["x"] ++ ["y"] ++ ["z"]).
    by rewrite !filter_app, !fmap_app. }
  rewrite Heq. split; [done |]. split.
  - intros Hsilent a Ha.
    assert (Hnil : filter (λ a, attribute_number (F := F) e a = None) attribute = []).
    { apply (f_equal length) in Hsilent. rewrite length_app, length_fmap in Hsilent.
      apply length_zero_iff_nil. lia. }
    destruct (attribute_number e a) eqn:E; [done |].
    assert (Hin : a ∈ filter (λ a, attribute_number (F := F) e a = None) attribute)
      by (apply list_elem_of_filter; done).
    rewrite Hnil in Hin. by apply not_elem_of_nil in Hin.
  - intros Hall.
    assert (Hnil : filter (λ a, attribute_number (F := F) e a = None) attribute = []).
    { apply filter_nil_none. intros a Ha%Hall Hnone.
      rewrite Hnone in Ha. by destruct Ha. }
    by rewrite Hnil, app_nil_r.
Qed.

(** [initFromDOMElement] resets the receiver: after it the receiver only
    depends on the element, so of two calls in a row the last one wins,
    and no other object changes. *)
Theorem initFromDOMElement_last_wins {F : Type} `{Scalar F} `{QtText F}
    (u1 u2 u : Vec F) (this : loc) (e1 e2 : QDomElement) (w : World F) :
  heap ((initFromDOMElement u1 this e1 ;; initFromDOMElement u2 this e2) w).2
    = heap (initFromDOMElement u this e2 w).2
  ∧ ∀ l : loc, l ≠ this → heap (initFromDOMElement u this e2 w).2 !! l = heap w !! l.
Proof.
  rewrite seq_run. unfold initFromDOMElement, mbind, M_bind, store.
  repeat (rewrite Vec_ctor_run; cbn [fst snd heap diagnostics]).
  split; [by rewrite insert_insert_eq |].
  intros l Hl. by rewrite lookup_insert_ne.
Qed.

(** "Use [initFromDOMElement()] to restore the [Vec] state from the
    resulting [QDomElement]": [dst.initFromDOMElement(src.domElement(..))]
    puts in [dst] each component of [src] as it reads back from its text,
    and changes no other object; when the three texts read back as the
    components, [dst] ends equal to [src] and nothing is printed. *)
Theorem domElement_restores {F : Type} `{Scalar F} `{QtText F}
    (uninit : Vec F) (src dst : loc) (name : string) (document : QDomDocument)
    (w : World F) :
  heap ((de ← domElement src name document; initFromDOMElement uninit dst de) w).2
    = <[dst := mkVec (through_text (x (heap w !!! src))) (through_text (y (heap w !!! src)))
                 (through_text (z (heap w !!! src)))]> (heap w)
  ∧ (QString_toDouble (QString_number (x (heap w !!! src))) = Some (x (heap w !!! src)) →
     QString_toDouble (QString_number (y (heap w !!! src))) = Some (y (heap w !!! src)) →
     QString_toDouble (QString_number (z (heap w !!! src))) = Some (z (heap w !!! src)) →
     (de ← domElement src name document; initFromDOMElement uninit dst de) w
       = (tt, mkWorld (<[dst := heap w !!! src]> (heap w)) (diagnostics w))).
Proof.
  rewrite !bind_run, domElement_run. cbn [fst snd].
  unfold initFromDOMElement. rewrite bind_run, Vec_ctor_run.
  unfold store. cbn [fst snd heap diagnostics].
  destruct (read_attribute_written name (x (heap w !!! src)) (y (heap w !!! src))
              (z (heap w !!! src))) as (-> & -> & -> & -> & -> & ->).
  split; [done |]. unfold through_text. intros -> -> ->.
  destruct (heap w !!! src) as [cx cy cz]. cbn. by rewrite app_nil_r.
Qed.

(** [Vec(7,8,9)] at 2 restored from [Vec(1.5,-2.25,0)] at 1. *)
Lemma domElement_restores_scenario :
  QString_toDouble (QString_number 1.5%float) = Some 1.5%float
  ∧ QString_toDouble (QString_number (-2.25)%float) = Some (-2.25)%float
  ∧ QString_toDouble (QString_number 0%float) = Some 0%float
  ∧ (de ← domElement 1 "pos" myDocument; initFromDOMElement garbage 2 de)
      two_vectors_scenario
    = (tt, mkWorld (<[2%positive := mkVec 1.5%float (-2.25)%float 0%float]>
                      (heap two_vectors_scenario)) []).
Proof.
  assert (Hx : QString_toDouble (QString_number 1.5%float) = Some 1.5%float)
    by (vm_compute; reflexivity).
  assert (Hy : QString_toDouble (QString_number (-2.25)%float) = Some (-2.25)%float)
    by (vm_compute; reflexivity).
  assert (Hz : QString_toDouble (QString_number 0%float) = Some 0%float)
    by (vm_compute; reflexivity).
  split; [exact Hx |]. split; [exact Hy |]. split; [exact Hz |].
  pose proof (proj2 (domElement_restores garbage 1 2 "pos" myDocument two_vectors_scenario))
    as Hrt.
  assert (Hv : heap two_vectors_scenario !!! 1%positive
               = mkVec 1.5%float (-2.25)%float 0%float) by reflexivity.
  rewrite Hv in Hrt. cbn [x y z] in Hrt. exact (Hrt Hx Hy Hz).
Defined.

(** On doubles the state is restored closely from every vector:
    [dst.initFromDOMElement(src.domElement(..))] puts in [dst] each
    component of [src] as it reads back from its six significant digits,
    a finite one within one part in [10^5] of itself and any other as
    itself; nothing is printed and no other object changes. *)
Theorem domElement_restores_closely
    (uninit : Vec float) (src dst : loc) (name : string) (document : QDomDocument)
    (w : World float) :
  (de ← domElement src name document; initFromDOMElement uninit dst de) w
    = (tt, mkWorld
             (<[dst := mkVec (through_text (x (heap w !!! src)))
                         (through_text (y (heap w !!! src)))
                         (through_text (z (heap w !!! src)))]> (heap w))
             (diagnostics w))
  ∧ read_back_close (x (heap w !!! src)) (through_text (x (heap w !!! src)))
  ∧ read_back_close (y (heap w !!! src)) (through_text (y (heap w !!! src)))
  ∧ read_back_close (z (heap w !!! src)) (through_text (z (heap w !!! src))).
Proof.
  assert (Hback : ∀ c : float,
            QString_toDouble (QString_number c) = Some (through_text c)
            ∧ read_back_close c (through_text c)).
  { intros c. unfold through_text. cbn [QString_toDouble QString_number float_text].
    by destruct (toDouble_number_g6 c) as (c' & -> & Hc). }
  rewrite !bind_run, domElement_run. cbn [fst snd].
  unfold initFromDOMElement. rewrite bind_run, Vec_ctor_run.
  unfold store. cbn [fst snd heap diagnostics].
  destruct (read_attribute_written name (x (heap w !!! src)) (y (heap w !!! src))
              (z (heap w !!! src))) as (-> & -> & -> & -> & -> & ->).
  destruct (Hback (x (heap w !!! src))) as [-> Hx].
  destruct (Hback (y (heap w !!! src))) as [-> Hy].
  destruct (Hback (z (heap w !!! src))) as [-> Hz].
  split; [| done]. cbn. by rewrite app_nil_r.
Qed.

(** ** More on the stream *)

(** [o << v] only appends: what the stream held stays in front, and what
    is appended does not depend on it. Two vectors written in a row,
    [o << v1 << v2], come out back to back, with nothing between the [z] of
    the first and the [x] of the second. *)
Theorem operator_lshift_chain {F : Type} `{QtText F} (o : ostream) (v1 v2 : Vec F) :
  operator_lshift o v1 = o +:+ operator_lshift "" v1
  ∧ operator_lshift (operator_lshift o v1) v2
    = o +:+ ostream_double (x v1) +:+ String TAB (ostream_double (y v1)
        +:+ String TAB (ostream_double (z v1)
        +:+ ostream_double (x v2) +:+ String TAB (ostream_double (y v2)
        +:+ String TAB (ostream_double (z v2))))).
Proof.
  unfold operator_lshift, put_double, put_char.
  split; rewrite !string_app_assoc; reflexivity.
Qed.

(** ** Scenarios for the two frame statements *)

(** The residual on doubles, [(1,2,3)] against [(1,0,0)]: the axis object
    at 2 is left alone. *)
Lemma projectOnPlane_is_residual_scenario :
  (2 ≠ 1)%positive
  ∧ heap (projectOnPlane false 1 2 axis_scenario).2 !!! 1%positive
    = mkVec 0%float 2%float 3%float
  ∧ heap (projectOnPlane false 1 2 axis_scenario).2 !! 2%positive
    = Some (mkVec 1%float 0%float 0%float).
Proof.
  assert (Hne : (2 ≠ 1)%positive) by discriminate.
  destruct (projectOnPlane_is_residual false 1 2 axis_scenario) as (Hv & _ & Hframe).
  destruct (Hframe 2%positive Hne) as [Hp _].
  split; [exact Hne |]. split; [rewrite Hv; vm_compute | rewrite Hp]; reflexivity.
Defined.

(** [initFromDOMElement] at 2 leaves the vector at 1 alone. *)
Lemma initFromDOMElement_last_wins_scenario :
  (1 ≠ 2)%positive
  ∧ heap ((initFromDOMElement garbage 2 malformed_y ;; initFromDOMElement garbage 2 missing_y)
            two_vectors_scenario).2 !!! 2%positive = mkVec 1.5%float 0%float 3%float
  ∧ heap (initFromDOMElement garbage 2 missing_y two_vectors_scenario).2 !! 1%positive
    = Some (mkVec 1.5%float (-2.25)%float 0%float).
Proof.
  assert (Hne : (1 ≠ 2)%positive) by discriminate.
  destruct (initFromDOMElement_last_wins garbage garbage garbage 2 malformed_y missing_y
              two_vectors_scenario) as [Hlast Hframe].
  split; [exact Hne |]. split; [rewrite Hlast; vm_compute | rewrite (Hframe _ Hne)];
    reflexivity.
Defined.
